(** * Session dispatch layer of the Pegasus Go client

    A shallow embedding of [session/replica_session.go]: the per-server
    operation facade [ReplicaSession] and the session pool [ReplicaManager],
    together with the properties of both that the design document states. *)

From Stdlib Require Import ZArith.
From stdpp Require Import gmap strings list fin_maps.

Local Open Scope string_scope.
Local Open Scope list_scope.
#[local] Set Warnings "-clear-no-such-hyp".

(** ** Values of the IDL packages

    [idl/base] and [idl/rrdb] are generated packages.  The facade only moves
    their values around, so the request and response structures are kept
    abstract; so are [context.Context], Go's non-nil [error] values and the
    value a session delivers on its close channel. *)

Class Idl := {
  Ctx : Type;                  (* context.Context *)
  error : Type;                (* a non-nil error; nil is [None] *)
  MultiGetRequest : Type;
  MultiPutRequest : Type;
  MultiRemoveRequest : Type;
  GetScannerRequest : Type;
  ScanRequest : Type;
  ReadResponse : Type;
  UpdateResponse : Type;
  MultiGetResponse : Type;
  MultiRemoveResponse : Type;
  TTLResponse : Type;
  ScanResponse : Type;
  Signal : Type;               (* what is received from [<-r.Close()] *)
}.

(** Modelled from the spec: [base.Blob] (package [idl/base]) is an opaque,
    immutable sequence of bytes. *)
Record Blob := { Data : list Byte.byte }.

(** Modelled from the spec: [base.Gpid] (package [idl/base]) is the pair of a
    table id and a partition index. *)
Record Gpid := { Appid : Z; PartitionIndex : Z }.

(** [rrdb.UpdateRequest], with the two fields that [Put] fills in. *)
Record UpdateRequest := { Key : option Blob; Value : option Blob }.

(** Throughout, a pointer is an [option], and [None] is nil. *)

(** ** The operation facade *)

Module Facade.
Section WithIdl.
Context `{Idl}.

(** The request envelopes [rrdb.Rrdb*Args] that the methods build. *)
Inductive RrdbArgs : Type :=
| RrdbGetArgs (key : option Blob)
| RrdbPutArgs (update : option UpdateRequest)
| RrdbRemoveArgs (key : option Blob)
| RrdbMultiGetArgs (request : option MultiGetRequest)
| RrdbMultiPutArgs (request : option MultiPutRequest)
| RrdbMultiRemoveArgs (request : option MultiRemoveRequest)
| RrdbTTLArgs (key : option Blob)
| RrdbGetScannerArgs (request : option GetScannerRequest)
| RrdbScanArgs (request : option ScanRequest)
| RrdbClearScannerArgs (contextID : Z).

(** Modelled from the spec: the result structures [rrdb.Rrdb*Result]
    (generated, package [idl/rrdb]) are the result union of an operation;
    each holds the success payload in its field [Success], nil when the
    operation did not succeed. *)
Record RrdbResult (R : Type) := { Success : option R }.
Global Arguments Success {R} _.
Global Arguments Build_RrdbResult {R} _.

(** The interface value that the generic call returns.  It is nil, or it
    holds a pointer (possibly nil) of one of the result types, or a value
    of some other dynamic type. *)
Inductive iface : Type :=
| NilIface
| PRrdbGetResult (p : option (RrdbResult ReadResponse))
| PRrdbPutResult (p : option (RrdbResult UpdateResponse))
| PRrdbRemoveResult (p : option (RrdbResult UpdateResponse))
| PRrdbMultiGetResult (p : option (RrdbResult MultiGetResponse))
| PRrdbMultiPutResult (p : option (RrdbResult UpdateResponse))
| PRrdbMultiRemoveResult (p : option (RrdbResult MultiRemoveResponse))
| PRrdbTTLResult (p : option (RrdbResult TTLResponse))
| PRrdbGetScannerResult (p : option (RrdbResult ScanResponse))
| PRrdbScanResult (p : option (RrdbResult ScanResponse))
| OtherDynamicType.

(** The two-valued type assertions of [result] to a pointer to one of the
    result structures: the pointer and [true] when the dynamic type
    matches, nil and [false] otherwise. *)
Definition assert_RrdbGetResult (result : iface) :=
  match result with PRrdbGetResult p => (p, true) | _ => (None, false) end.
Definition assert_RrdbPutResult (result : iface) :=
  match result with PRrdbPutResult p => (p, true) | _ => (None, false) end.
Definition assert_RrdbRemoveResult (result : iface) :=
  match result with PRrdbRemoveResult p => (p, true) | _ => (None, false) end.
Definition assert_RrdbMultiGetResult (result : iface) :=
  match result with PRrdbMultiGetResult p => (p, true) | _ => (None, false) end.
Definition assert_RrdbMultiPutResult (result : iface) :=
  match result with PRrdbMultiPutResult p => (p, true) | _ => (None, false) end.
Definition assert_RrdbMultiRemoveResult (result : iface) :=
  match result with PRrdbMultiRemoveResult p => (p, true) | _ => (None, false) end.
Definition assert_RrdbTTLResult (result : iface) :=
  match result with PRrdbTTLResult p => (p, true) | _ => (None, false) end.
Definition assert_RrdbGetScannerResult (result : iface) :=
  match result with PRrdbGetScannerResult p => (p, true) | _ => (None, false) end.
Definition assert_RrdbScanResult (result : iface) :=
  match result with PRrdbScanResult p => (p, true) | _ => (None, false) end.

(** *** Programs

    A method is a program that may issue generic calls.  The call is the one
    effect of the facade, so it is a constructor of the program type and a
    transport gives it a meaning later ([run]).  [Panic] is a run-time
    panic. *)
Record Call := {
  call_ctx : Ctx;
  call_gpid : option Gpid;
  call_args : RrdbArgs;
  call_name : string;
}.

Definition Reply : Type := iface * option error.

Inductive Prog (A : Type) : Type :=
| Return (a : A)
| Panic
| Invoke (c : Call) (k : Reply → Prog A).
Global Arguments Return {A} a.
Global Arguments Panic {A}.
Global Arguments Invoke {A} c k.

Fixpoint bind {A B} (m : Prog A) (f : A → Prog B) : Prog B :=
  match m with
  | Return a => f a
  | Panic => Panic
  | Invoke c k => Invoke c (λ r, bind (k r) f)
  end.

Global Instance Prog_ret : MRet Prog := @Return.
Global Instance Prog_bind : MBind Prog := λ A B f m, bind m f.

(** Modelled from the spec: [callWithGpid] (method of the embedded
    [nodeSession], defined elsewhere in the package) is the generic call
    primitive: from a context, a partition identifier, a request envelope
    and an operation name to a result union and an error. *)
Definition callWithGpid (ctx : Ctx) (gpid : option Gpid) (args : RrdbArgs)
    (name : string) : Prog Reply :=
  Invoke {| call_ctx := ctx; call_gpid := gpid;
            call_args := args; call_name := name |} Return.

(** Modelled from the spec: the getter [GetSuccess] of a result structure
    (generated, package [idl/rrdb]) extracts the success payload without a
    check: it reads the field [Success] of its receiver.  What it does on a
    nil receiver is told by neither the source nor the design document; the
    model takes Go's rule for a read through a nil pointer, a panic, and
    the claims and the further properties settled below are stated so that
    they hold whichever it does. *)
Definition GetSuccess {R} (p : option (RrdbResult R)) : Prog (option R) :=
  match p with
  | Some r => Return (Success r)
  | None => Panic
  end.

(** *** The typed operation methods *)

Definition Get (ctx : Ctx) (gpid : option Gpid) (key : option Blob)
    : Prog (option ReadResponse * option error) :=
  let args := RrdbGetArgs key in
  '(result, err) ← callWithGpid ctx gpid args "RPC_RRDB_RRDB_GET";
  match err with
  | Some e => mret (None, Some e)
  | None =>
      let '(ret, _) := assert_RrdbGetResult result in
      s ← GetSuccess ret; mret (s, None)
  end.

Definition Put (ctx : Ctx) (gpid : option Gpid) (key value : option Blob)
    : Prog (option UpdateResponse * option error) :=
  let update := Some {| Key := key; Value := value |} in
  let args := RrdbPutArgs update in
  '(result, err) ← callWithGpid ctx gpid args "RPC_RRDB_RRDB_PUT";
  match err with
  | Some e => mret (None, Some e)
  | None =>
      let '(ret, _) := assert_RrdbPutResult result in
      s ← GetSuccess ret; mret (s, None)
  end.

Definition Del (ctx : Ctx) (gpid : option Gpid) (key : option Blob)
    : Prog (option UpdateResponse * option error) :=
  let args := RrdbRemoveArgs key in
  '(result, err) ← callWithGpid ctx gpid args "RPC_RRDB_RRDB_REMOVE";
  match err with
  | Some e => mret (None, Some e)
  | None =>
      let '(ret, _) := assert_RrdbRemoveResult result in
      s ← GetSuccess ret; mret (s, None)
  end.

Definition MultiGet (ctx : Ctx) (gpid : option Gpid)
    (request : option MultiGetRequest)
    : Prog (option MultiGetResponse * option error) :=
  let args := RrdbMultiGetArgs request in
  '(result, err) ← callWithGpid ctx gpid args "RPC_RRDB_RRDB_MULTI_GET";
  match err with
  | Some e => mret (None, Some e)
  | None =>
      let '(ret, _) := assert_RrdbMultiGetResult result in
      s ← GetSuccess ret; mret (s, None)
  end.

Definition MultiSet (ctx : Ctx) (gpid : option Gpid)
    (request : option MultiPutRequest)
    : Prog (option UpdateResponse * option error) :=
  let args := RrdbMultiPutArgs request in
  '(result, err) ← callWithGpid ctx gpid args "RPC_RRDB_RRDB_MULTI_PUT";
  match err with
  | Some e => mret (None, Some e)
  | None =>
      let '(ret, _) := assert_RrdbMultiPutResult result in
      s ← GetSuccess ret; mret (s, None)
  end.

Definition MultiDelete (ctx : Ctx) (gpid : option Gpid)
    (request : option MultiRemoveRequest)
    : Prog (option MultiRemoveResponse * option error) :=
  let args := RrdbMultiRemoveArgs request in
  '(result, err) ← callWithGpid ctx gpid args "RPC_RRDB_RRDB_MULTI_REMOVE";
  match err with
  | Some e => mret (None, Some e)
  | None =>
      let '(ret, _) := assert_RrdbMultiRemoveResult result in
      s ← GetSuccess ret; mret (s, None)
  end.

Definition TTL (ctx : Ctx) (gpid : option Gpid) (key : option Blob)
    : Prog (option TTLResponse * option error) :=
  let args := RrdbTTLArgs key in
  '(result, err) ← callWithGpid ctx gpid args "RPC_RRDB_RRDB_TTL";
  match err with
  | Some e => mret (None, Some e)
  | None =>
      let '(ret, _) := assert_RrdbTTLResult result in
      s ← GetSuccess ret; mret (s, None)
  end.

Definition GetScanner (ctx : Ctx) (gpid : option Gpid)
    (request : option GetScannerRequest)
    : Prog (option ScanResponse * option error) :=
  let args := RrdbGetScannerArgs request in
  '(result, err) ← callWithGpid ctx gpid args "RPC_RRDB_RRDB_GET_SCANNER";
  match err with
  | Some e => mret (None, Some e)
  | None =>
      let '(ret, _) := assert_RrdbGetScannerResult result in
      s ← GetSuccess ret; mret (s, None)
  end.

Definition Scan (ctx : Ctx) (gpid : option Gpid)
    (request : option ScanRequest)
    : Prog (option ScanResponse * option error) :=
  let args := RrdbScanArgs request in
  '(result, err) ← callWithGpid ctx gpid args "RPC_RRDB_RRDB_SCAN";
  match err with
  | Some e => mret (None, Some e)
  | None =>
      let '(ret, _) := assert_RrdbScanResult result in
      s ← GetSuccess ret; mret (s, None)
  end.

Definition ClearScanner (ctx : Ctx) (gpid : option Gpid) (contextId : Z)
    : Prog (option error) :=
  let args := RrdbClearScannerArgs contextId in
  '(_, err) ← callWithGpid ctx gpid args "RPC_RRDB_RRDB_CLEAR_SCANNER";
  match err with
  | Some e => mret (Some e)
  | None => mret None
  end.

(** [String] renders the address of the embedded session. *)
Definition String (addr : string) : string := "replica(" +:+ addr +:+ ")".

(** *** Running a program against a transport

    A transport answers each call from its current state.  [run] threads
    that state through the program and records every call it issues, in
    order. *)
Inductive Outcome (A : Type) : Type :=
| Returned (a : A)
| Panicked.
Global Arguments Returned {A} a.
Global Arguments Panicked {A}.

Section Run.
Context {World : Type}.
Variable transport : World → Call → Reply * World.

Fixpoint run {A} (p : Prog A) (w : World) (log : list Call)
    : Outcome A * World * list Call :=
  match p with
  | Return a => (Returned a, w, log)
  | Panic => (Panicked, w, log)
  | Invoke c k =>
      let '(r, w') := transport w c in
      run (k r) w' (log ++ [c])
  end.
End Run.

(** *** The table of typed methods

    The nine methods that return a payload, as one family indexed by
    [Method], so that a property can be stated once for all of them.
    [ClearScanner] returns an error only and stays apart. *)
Inductive Method : Type :=
| MGet | MPut | MDel | MMultiGet | MMultiSet | MMultiDelete
| MTTL | MGetScanner | MScan.

(** What the caller passes besides the context and the partition. *)
Definition Request (m : Method) : Type :=
  match m with
  | MGet | MDel | MTTL => option Blob
  | MPut => (option Blob * option Blob)%type
  | MMultiGet => option MultiGetRequest
  | MMultiSet => option MultiPutRequest
  | MMultiDelete => option MultiRemoveRequest
  | MGetScanner => option GetScannerRequest
  | MScan => option ScanRequest
  end.

Definition Response (m : Method) : Type :=
  match m with
  | MGet => ReadResponse
  | MPut | MDel | MMultiSet => UpdateResponse
  | MMultiGet => MultiGetResponse
  | MMultiDelete => MultiRemoveResponse
  | MTTL => TTLResponse
  | MGetScanner | MScan => ScanResponse
  end.

Definition invoke (m : Method) (ctx : Ctx) (gpid : option Gpid)
    : Request m → Prog (option (Response m) * option error) :=
  match m with
  | MGet => Get ctx gpid
  | MPut => λ kv, Put ctx gpid kv.1 kv.2
  | MDel => Del ctx gpid
  | MMultiGet => MultiGet ctx gpid
  | MMultiSet => MultiSet ctx gpid
  | MMultiDelete => MultiDelete ctx gpid
  | MTTL => TTL ctx gpid
  | MGetScanner => GetScanner ctx gpid
  | MScan => Scan ctx gpid
  end.

(** The wire name of each operation. *)
Definition wire_name (m : Method) : string :=
  match m with
  | MGet => "RPC_RRDB_RRDB_GET"
  | MPut => "RPC_RRDB_RRDB_PUT"
  | MDel => "RPC_RRDB_RRDB_REMOVE"
  | MMultiGet => "RPC_RRDB_RRDB_MULTI_GET"
  | MMultiSet => "RPC_RRDB_RRDB_MULTI_PUT"
  | MMultiDelete => "RPC_RRDB_RRDB_MULTI_REMOVE"
  | MTTL => "RPC_RRDB_RRDB_TTL"
  | MGetScanner => "RPC_RRDB_RRDB_GET_SCANNER"
  | MScan => "RPC_RRDB_RRDB_SCAN"
  end.

(** The envelope that holds the caller's request, itself unchanged. *)
Definition envelope (m : Method) : Request m → RrdbArgs :=
  match m with
  | MGet => RrdbGetArgs
  | MPut => λ kv, RrdbPutArgs (Some {| Key := kv.1; Value := kv.2 |})
  | MDel => RrdbRemoveArgs
  | MMultiGet => RrdbMultiGetArgs
  | MMultiSet => RrdbMultiPutArgs
  | MMultiDelete => RrdbMultiRemoveArgs
  | MTTL => RrdbTTLArgs
  | MGetScanner => RrdbGetScannerArgs
  | MScan => RrdbScanArgs
  end.

Definition call_of (m : Method) (ctx : Ctx) (gpid : option Gpid)
    (req : Request m) : Call :=
  {| call_ctx := ctx; call_gpid := gpid;
     call_args := envelope m req; call_name := wire_name m |}.

(** The interface value that holds a pointer to the result structure of
    operation [m]. *)
Definition result_of (m : Method)
    : option (RrdbResult (Response m)) → iface :=
  match m with
  | MGet => PRrdbGetResult
  | MPut => PRrdbPutResult
  | MDel => PRrdbRemoveResult
  | MMultiGet => PRrdbMultiGetResult
  | MMultiSet => PRrdbMultiPutResult
  | MMultiDelete => PRrdbMultiRemoveResult
  | MTTL => PRrdbTTLResult
  | MGetScanner => PRrdbGetScannerResult
  | MScan => PRrdbScanResult
  end.

Definition assert_result (m : Method)
    : iface → option (RrdbResult (Response m)) * bool :=
  match m with
  | MGet => assert_RrdbGetResult
  | MPut => assert_RrdbPutResult
  | MDel => assert_RrdbRemoveResult
  | MMultiGet => assert_RrdbMultiGetResult
  | MMultiSet => assert_RrdbMultiPutResult
  | MMultiDelete => assert_RrdbMultiRemoveResult
  | MTTL => assert_RrdbTTLResult
  | MGetScanner => assert_RrdbGetScannerResult
  | MScan => assert_RrdbScanResult
  end.

(** The discriminant of a result, read for the operation that was issued:
    the result structure of that operation with its success field set is
    the success variant; the same structure with the field unset reports a
    failure of the application; anything else is unexpected. *)
Inductive Discriminant : Type :=
| SuccessVariant
| ApplicationFailure
| Unexpected.

Definition discriminant (m : Method) (result : iface) : Discriminant :=
  match assert_result m result with
  | (Some r, true) =>
      match Success r with
      | Some _ => SuccessVariant
      | None => ApplicationFailure
      end
  | _ => Unexpected
  end.

End WithIdl.
End Facade.

(** ** The session pool *)

Module Pool.
Section WithIdl.
Context `{Idl}.

Inductive NodeType : Type :=
| kNodeTypeMeta
| kNodeTypeReplica.

(** Modelled from the spec: [nodeSession] and [newNodeSession] (defined
    elsewhere in the package) are the transport session of one network
    address; constructing one is local and opens no connection yet. *)
Record nodeSession := { addr : string; ntype : NodeType }.

Definition newNodeSession (a : string) (n : NodeType) : nodeSession :=
  {| addr := a; ntype := n |}.

Record ReplicaSession := { session : nodeSession }.

(** A [*ReplicaSession] is a location of the heap of session objects; a new
    object goes to the end of the heap, so two pointers are the same
    instance exactly when they are equal. *)
Definition loc : Type := nat.

(** The store: the session objects constructed so far, and the map
    [replicas] of the manager.  The manager's lock is part of [Race]
    below; a single caller always finds it free. *)
Record State := {
  heap : list ReplicaSession;
  replicas : gmap string loc;
}.

Definition newReplicaSession (a : string) (σ : State) : loc * State :=
  let r := {| session := newNodeSession a kNodeTypeReplica |} in
  (length (heap σ), {| heap := heap σ ++ [r]; replicas := replicas σ |}).

(** [GetReplica]: insert a new session when the address has none, then
    return the entry of the address (nil, [None], were it missing). *)
Definition GetReplica (a : string) (σ : State) : option loc * State :=
  let σ' :=
    match replicas σ !! a with
    | Some _ => σ
    | None =>
        let '(r, σ1) := newReplicaSession a σ in
        {| heap := heap σ1; replicas := <[a := r]> (replicas σ1) |}
    end in
  (replicas σ' !! a, σ').

(** [NewReplicaManager] starts from an empty map; [h] holds the sessions
    that other pools constructed before. *)
Definition NewReplicaManager (h : list ReplicaSession) : State :=
  {| heap := h; replicas := ∅ |}.

Definition ReplicaCount (σ : State) : nat := size (replicas σ).

(** A sequence of [GetReplica] calls, one per address of the list. *)
Definition register_all (addrs : list string) (σ : State) : State :=
  foldl (λ σ a, (GetReplica a σ).2) σ addrs.

(** *** Close

    Modelled from the spec: the close primitive of a session (method
    [Close] of [nodeSession], defined elsewhere in the package) is
    asynchronous and hands back a completion signal, here a channel; the
    receive from it waits for the signal.  [closing r] is what the channel
    of session [r] delivers, [None] when it never delivers anything, in
    which case the receive, and the pool's [Close] with it, waits for
    ever. *)
Inductive Event : Type :=
| CloseCalled (r : loc)
| SignalReceived (r : loc) (s : Signal).

Inductive CloseResult : Type :=
| CloseReturned (err : option error)
| CloseBlocked.

Section Closing.
Variable closing : loc → option Signal.

(** The loop over the map, in the order [order] that the range yields its
    entries; the flag tells whether the loop ran to its end. *)
Fixpoint close_range (order : list (string * loc)) (tr : list Event)
    : bool * list Event :=
  match order with
  | [] => (true, tr)
  | (_, r) :: rest =>
      let tr := tr ++ [CloseCalled r] in
      match closing r with
      | Some s => close_range rest (tr ++ [SignalReceived r s])
      | None => (false, tr)
      end
  end.

Definition Close (order : list (string * loc)) (σ : State)
    : CloseResult * list Event * State :=
  match close_range order [] with
  | (true, tr) => (CloseReturned None, tr, σ)
  | (false, tr) => (CloseBlocked, tr, σ)
  end.

(** *** Pool states as a step relation

    An operation of the pool, and what its caller observes. *)
Inductive Op : Type :=
| OpGetReplica (a : string)
| OpClose (order : list (string * loc))
| OpReplicaCount.

Inductive Obs : Type :=
| ObsGetReplica (a : string) (ret : option loc) (created : bool)
| ObsClose (res : CloseResult) (tr : list Event)
| ObsReplicaCount (n : nat).

Definition exec_op (o : Op) (σ : State) : Obs * State :=
  match o with
  | OpGetReplica a =>
      let '(ret, σ') := GetReplica a σ in
      (ObsGetReplica a ret (Nat.ltb (length (heap σ)) (length (heap σ'))), σ')
  | OpClose order =>
      let '(res, tr, σ') := Close order σ in (ObsClose res tr, σ')
  | OpReplicaCount => (ObsReplicaCount (ReplicaCount σ), σ)
  end.

Fixpoint exec (ops : list Op) (σ : State) : list Obs * State :=
  match ops with
  | [] => ([], σ)
  | o :: rest =>
      let '(ob, σ1) := exec_op o σ in
      let '(obs, σ2) := exec rest σ1 in
      (ob :: obs, σ2)
  end.

(** A session is created after a close that returned. *)
Fixpoint created_after_close (closed : bool) (obs : list Obs) : bool :=
  match obs with
  | [] => false
  | ObsGetReplica _ _ created :: rest =>
      (closed && created) || created_after_close closed rest
  | ObsClose (CloseReturned _) _ :: rest => created_after_close true rest
  | _ :: rest => created_after_close closed rest
  end.

End Closing.

(** The range of [Close] yields every entry of the map once, in an order
    of its own choosing. *)
Definition range_order (σ : State) (order : list (string * loc)) : Prop :=
  order ≡ₚ map_to_list (replicas σ).

(** The sessions whose close a trace invokes, in the order of the calls. *)
Definition closed_sessions (tr : list Event) : list loc :=
  omap (λ e, match e with
             | CloseCalled r => Some r
             | SignalReceived _ _ => None
             end) tr.

(** What a pool keeps once [NewReplicaManager h] has made it: every entry
    of the map points, past the sessions of [h], to a session of the
    entry's own address, and the sessions the heap holds past [h] are as
    many as the entries. *)
Record pool_inv (h : list ReplicaSession) (σ : State) : Prop := {
  pool_entry : ∀ a r, replicas σ !! a = Some r →
    (length h ≤ r)%nat ∧
    heap σ !! r = Some {| session := newNodeSession a kNodeTypeReplica |};
  pool_heap : ∃ new, heap σ = h ++ new ∧ length new = size (replicas σ);
}.

End WithIdl.
End Pool.

(** ** Concurrent callers of [GetReplica]

    Every access to the map is made under the manager's lock, so an
    execution is an interleaving of the callers' steps.  A caller that waits
    for the lock has no step. *)

Module Race.
Import Pool.

(** Where a caller of [GetReplica a] stands. *)
Inductive Thread : Type :=
| AtLock (a : string)                       (* before [rm.Lock()] *)
| AtCheck (a : string)                      (* before the test of the entry *)
| AtInsert (a : string)                     (* before construction and insert *)
| AtReturn (a : string)                     (* before the final lookup *)
| AtUnlock (a : string) (ret : option loc)  (* before the deferred unlock *)
| Done (a : string) (ret : option loc).     (* returned [ret] *)

Record Config := {
  store : State;
  locked : bool;
  threads : list Thread;
}.

Definition init (σ : State) (addrs : list string) : Config :=
  {| store := σ; locked := false; threads := AtLock <$> addrs |}.

(** One step of caller [i]; [None] when it has none. *)
Definition step (i : nat) (c : Config) : option Config :=
  match threads c !! i with
  | Some (AtLock a) =>
      if locked c then None
      else Some {| store := store c; locked := true;
                   threads := <[i := AtCheck a]> (threads c) |}
  | Some (AtCheck a) =>
      let next :=
        match replicas (store c) !! a with
        | Some _ => AtReturn a
        | None => AtInsert a
        end in
      Some {| store := store c; locked := locked c;
              threads := <[i := next]> (threads c) |}
  | Some (AtInsert a) =>
      let '(r, σ1) := newReplicaSession a (store c) in
      Some {| store := {| heap := heap σ1;
                          replicas := <[a := r]> (replicas σ1) |};
              locked := locked c;
              threads := <[i := AtReturn a]> (threads c) |}
  | Some (AtReturn a) =>
      Some {| store := store c; locked := locked c;
              threads := <[i := AtUnlock a (replicas (store c) !! a)]>
                           (threads c) |}
  | Some (AtUnlock a ret) =>
      Some {| store := store c; locked := false;
              threads := <[i := Done a ret]> (threads c) |}
  | Some (Done _ _) | None => None
  end.

(** An execution follows a schedule, the list of the callers that step. *)
Fixpoint exec (sched : list nat) (c : Config) : option Config :=
  match sched with
  | [] => Some c
  | i :: rest =>
      match step i c with
      | Some c' => exec rest c'
      | None => None
      end
  end.

Definition is_done (t : Thread) : bool :=
  match t with Done _ _ => true | _ => false end.

Definition all_done (c : Config) : bool := forallb is_done (threads c).

(** The caller holds the lock. *)
Definition in_cs (t : Thread) : bool :=
  match t with
  | AtCheck _ | AtInsert _ | AtReturn _ | AtUnlock _ _ => true
  | AtLock _ | Done _ _ => false
  end.

(** An upper bound on the steps a caller still takes. *)
Definition steps_left (t : Thread) : nat :=
  match t with
  | AtLock _ => 5
  | AtCheck _ => 4
  | AtInsert _ => 3
  | AtReturn _ => 2
  | AtUnlock _ _ => 1
  | Done _ _ => 0
  end.

Definition budget (c : Config) : nat := sum_list (steps_left <$> threads c).

Definition thread_addr (t : Thread) : string :=
  match t with
  | AtLock a | AtCheck a | AtInsert a | AtReturn a
  | AtUnlock a _ | Done a _ => a
  end.

(** *** The invariant of a race on one fresh address

    All callers ask for the address [a], which the store [σ0] at the start
    does not hold.  [early] callers are those a store without the entry
    admits; [late r] callers those a store admits whose entry is [r]. *)
Definition early (t : Thread) : Prop :=
  match t with
  | AtLock _ | AtCheck _ | AtInsert _ => True
  | AtReturn _ | AtUnlock _ _ | Done _ _ => False
  end.

Definition late (r : loc) (t : Thread) : Prop :=
  match t with
  | AtLock _ | AtCheck _ | AtReturn _ => True
  | AtInsert _ => False
  | AtUnlock _ ret | Done _ ret => ret = Some r
  end.

(** The store once the one session of [a] is constructed and registered. *)
Definition registered (a : string) (σ0 : State) : State :=
  {| heap := heap σ0 ++ [{| session := newNodeSession a kNodeTypeReplica |}];
     replicas := <[a := length (heap σ0)]> (replicas σ0) |}.

Record Inv (a : string) (σ0 : State) (c : Config) : Prop := {
  inv_addr : ∀ i t, threads c !! i = Some t → thread_addr t = a;
  inv_free : locked c = false →
             ∀ i t, threads c !! i = Some t → in_cs t = false;
  inv_held : locked c = true →
             ∃ i t, threads c !! i = Some t ∧ in_cs t = true;
  inv_one : ∀ i j ti tj,
      threads c !! i = Some ti → threads c !! j = Some tj →
      in_cs ti = true → in_cs tj = true → i = j;
  inv_store :
      (store c = σ0 ∧ ∀ i t, threads c !! i = Some t → early t) ∨
      (store c = registered a σ0 ∧
       ∀ i t, threads c !! i = Some t → late (length (heap σ0)) t);
}.

(** *** The invariant of a race on any addresses

    A caller takes effect when it has found or made the entry of its
    address: from [AtReturn] on.  [took_effect t] is then its address. *)
Definition took_effect (t : Thread) : option string :=
  match t with
  | AtReturn a | AtUnlock a _ | Done a _ => Some a
  | AtLock _ | AtCheck _ | AtInsert _ => None
  end.

(** The callers ask for [addrs], in this order of callers, and started
    from the store [σ0].  The store is the one that [GetReplica] calls, one
    after the other, make from [σ0] for the callers that took effect. *)
Record Ser (σ0 : State) (addrs : list string) (c : Config) : Prop := {
  ser_addrs : thread_addr <$> threads c = addrs;
  ser_free : locked c = false →
             ∀ i t, threads c !! i = Some t → in_cs t = false;
  ser_held : locked c = true →
             ∃ i t, threads c !! i = Some t ∧ in_cs t = true;
  ser_one : ∀ i j ti tj,
      threads c !! i = Some ti → threads c !! j = Some tj →
      in_cs ti = true → in_cs tj = true → i = j;
  ser_order : ∃ order,
      order ≡ₚ omap took_effect (threads c) ∧
      store c = register_all order σ0;
  ser_insert : ∀ i a, threads c !! i = Some (AtInsert a) →
      replicas (store c) !! a = None;
  ser_return : ∀ i a, threads c !! i = Some (AtReturn a) →
      is_Some (replicas (store c) !! a);
  ser_result : ∀ i a ret,
      threads c !! i = Some (AtUnlock a ret) ∨
      threads c !! i = Some (Done a ret) →
      is_Some ret ∧ replicas (store c) !! a = ret;
}.

End Race.

(** ** Concurrent callers of all three operations

    [GetReplica] and [Close] take the manager's lock for writing,
    [ReplicaCount] takes it for reading.  The lock is held by one writer or
    by any number of readers.  A caller of [Close] holds it for the whole
    range, the waits for the sessions' signals included.

    A reader is admitted whenever no writer holds the lock; Go's lock may
    keep it waiting longer, behind a writer that waits, which takes
    executions away and adds none.  A caller of [Close] comes with the
    order in which its range will yield the entries; every order is
    admitted, the orders of a real range among them. *)

Module Locking.
Import Pool Race.
Section WithIdl.
Context `{Idl}.
Variable closing : loc → option Signal.

(** Where a caller of [Close] stands; [rest] is what the range has still
    to yield. *)
Inductive CloseState : Type :=
| CloseAtLock (order : list (string * loc))      (* before [rm.Lock()] *)
| CloseAtRange (rest : list (string * loc))      (* at the head of the loop *)
| CloseAtWait (r : loc) (rest : list (string * loc))
                                                 (* at the receive *)
| CloseDone (err : option error).                (* returned [err] *)

(** Where a caller of [ReplicaCount] stands. *)
Inductive CountState : Type :=
| CountAtRLock                                   (* before [rm.RLock()] *)
| CountAtLen                                     (* before [len] *)
| CountAtRUnlock (n : nat)                       (* before the unlock *)
| CountDone (n : nat).                           (* returned [n] *)

Inductive Caller : Type :=
| Getting (t : Thread)
| Closing (s : CloseState)
| Counting (s : CountState).

Record Config := {
  store : State;
  writer : bool;
  readers : nat;
  callers : list Caller;
}.

Definition start (o : Op) : Caller :=
  match o with
  | OpGetReplica a => Getting (AtLock a)
  | OpClose order => Closing (CloseAtLock order)
  | OpReplicaCount => Counting CountAtRLock
  end.

Definition init (σ : State) (ops : list Op) : Config :=
  {| store := σ; writer := false; readers := 0; callers := start <$> ops |}.

(** The steps of [GetReplica] between its lock and its unlock. *)
Definition inside_step (t : Thread) (σ : State) : option (Thread * State) :=
  match t with
  | AtCheck a =>
      Some (match replicas σ !! a with
            | Some _ => AtReturn a
            | None => AtInsert a
            end, σ)
  | AtInsert a =>
      let '(r, σ1) := newReplicaSession a σ in
      Some (AtReturn a,
            {| heap := heap σ1; replicas := <[a := r]> (replicas σ1) |})
  | AtReturn a => Some (AtUnlock a (replicas σ !! a), σ)
  | AtLock _ | AtUnlock _ _ | Done _ _ => None
  end.

Definition set_caller (i : nat) (x : Caller) (c : Config) : Config :=
  {| store := store c; writer := writer c; readers := readers c;
     callers := <[i := x]> (callers c) |}.

(** The lock is free for a writer. *)
Definition free_for_writer (c : Config) : bool :=
  negb (writer c) && Nat.eqb (readers c) 0.

(** One step of caller [i]; [None] when it has none. *)
Definition step (i : nat) (c : Config) : option Config :=
  match callers c !! i with
  | Some (Getting (AtLock a)) =>
      if free_for_writer c
      then Some {| store := store c; writer := true; readers := readers c;
                   callers := <[i := Getting (AtCheck a)]> (callers c) |}
      else None
  | Some (Getting (AtUnlock a ret)) =>
      Some {| store := store c; writer := false; readers := readers c;
              callers := <[i := Getting (Done a ret)]> (callers c) |}
  | Some (Getting t) =>
      match inside_step t (store c) with
      | Some (t', σ') =>
          Some {| store := σ'; writer := writer c; readers := readers c;
                  callers := <[i := Getting t']> (callers c) |}
      | None => None
      end
  | Some (Closing (CloseAtLock order)) =>
      if free_for_writer c
      then Some {| store := store c; writer := true; readers := readers c;
                   callers := <[i := Closing (CloseAtRange order)]>
                                (callers c) |}
      else None
  | Some (Closing (CloseAtRange ((_, r) :: rest))) =>
      Some (set_caller i (Closing (CloseAtWait r rest)) c)
  | Some (Closing (CloseAtWait r rest)) =>
      match closing r with
      | Some _ => Some (set_caller i (Closing (CloseAtRange rest)) c)
      | None => None
      end
  | Some (Closing (CloseAtRange [])) =>
      Some {| store := store c; writer := false; readers := readers c;
              callers := <[i := Closing (CloseDone None)]> (callers c) |}
  | Some (Counting CountAtRLock) =>
      if writer c then None
      else Some {| store := store c; writer := writer c;
                   readers := S (readers c);
                   callers := <[i := Counting CountAtLen]> (callers c) |}
  | Some (Counting CountAtLen) =>
      Some (set_caller i
              (Counting (CountAtRUnlock (ReplicaCount (store c)))) c)
  | Some (Counting (CountAtRUnlock n)) =>
      Some {| store := store c; writer := writer c;
              readers := pred (readers c);
              callers := <[i := Counting (CountDone n)]> (callers c) |}
  | Some (Closing (CloseDone _)) | Some (Counting (CountDone _)) | None =>
      None
  end.

Fixpoint exec (sched : list nat) (c : Config) : option Config :=
  match sched with
  | [] => Some c
  | i :: rest =>
      match step i c with
      | Some c' => exec rest c'
      | None => None
      end
  end.

(** The caller holds the lock for writing. *)
Definition writing (x : Caller) : bool :=
  match x with
  | Getting t => in_cs t
  | Closing (CloseAtRange _) | Closing (CloseAtWait _ _) => true
  | Closing _ | Counting _ => false
  end.

(** The caller holds the lock for reading: 1, else 0. *)
Definition reading (x : Caller) : nat :=
  match x with
  | Counting CountAtLen | Counting (CountAtRUnlock _) => 1
  | _ => 0
  end.

(** What every execution from the store [σ0] keeps. *)
Record Disciplined (σ0 : State) (c : Config) : Prop := {
  d_readers : readers c = sum_list (reading <$> callers c);
  d_no_writer : writer c = false →
                ∀ i x, callers c !! i = Some x → writing x = false;
  d_one_writer : ∀ i j xi xj,
      callers c !! i = Some xi → callers c !! j = Some xj →
      writing xi = true → writing xj = true → i = j;
  d_exclusive : writer c = true → readers c = 0;
  d_reading : ∀ i n, callers c !! i = Some (Counting (CountAtRUnlock n)) →
      n = ReplicaCount (store c);
  d_read : ∀ i n, callers c !! i = Some (Counting (CountDone n)) →
      (ReplicaCount σ0 ≤ n ∧ n ≤ ReplicaCount (store c))%nat;
  d_grows : (ReplicaCount σ0 ≤ ReplicaCount (store c))%nat;
}.

End WithIdl.
End Locking.

(** ** A small instance of the IDL types, for concrete evaluations *)

Definition example_idl : Idl := {|
  Ctx := unit;
  error := string;
  MultiGetRequest := list Blob;
  MultiPutRequest := list (Blob * Blob);
  MultiRemoveRequest := list Blob;
  GetScannerRequest := Blob * Blob;
  ScanRequest := Z;
  ReadResponse := Z * Blob;
  UpdateResponse := Z;
  MultiGetResponse := list (Blob * Blob);
  MultiRemoveResponse := Z;
  TTLResponse := Z;
  ScanResponse := list (Blob * Blob) * Z;
  Signal := option string;
|}.

Section Concrete.
Import Facade Pool Race.
Existing Instance example_idl.

Definition gpid_1_3 : option Gpid := Some {| Appid := 1; PartitionIndex := 3 |}.
Definition key_a : option Blob := Some {| Data := [Byte.x61] |}.
Definition value_b : option Blob := Some {| Data := [Byte.x62] |}.

(** A transport that gives every call the same reply and counts the calls
    it has answered. *)
Definition constant_transport (reply : Reply) (w : nat) (c : Call)
    : Reply * nat := (reply, S w).

Definition addr1 : string := "10.0.0.1:34801".
Definition addr2 : string := "10.0.0.2:34801".

Definition two_sessions : State :=
  register_all [addr1; addr2] (NewReplicaManager []).

(** Every session closes cleanly. *)
Definition closes_cleanly (r : loc) : option Signal := Some None.

(** Every session reports a failure of its close. *)
Definition closes_with_failure (r : loc) : option Signal :=
  Some (Some "broken pipe").

(** Three callers have all returned the one session of [addr1]. *)
Definition three_returned : Config :=
  {| store :=
       {| heap := [{| session := newNodeSession addr1 kNodeTypeReplica |}];
          replicas := {[addr1 := 0]} |};
     locked := false;
     threads := replicate 3 (Done addr1 (Some 0)) |}.

Definition addr3 : string := "10.0.0.3:34801".

(** The first session constructed never signals that it has closed; the
    others close cleanly. *)
Definition first_never_signals (r : loc) : option Signal :=
  match r with
  | 0 => None
  | S _ => Some None
  end.

(** Callers for [addr1], [addr2] and [addr1] again have all returned. *)
Definition mixed_returned : Config :=
  {| store := two_sessions;
     locked := false;
     threads := [Done addr1 (Some 0); Done addr2 (Some 1);
                 Done addr1 (Some 0)] |}.

(** Of two callers the second holds the lock and is about to test the
    entry of its address. *)
Definition second_holds_lock : Config :=
  {| store := NewReplicaManager [];
     locked := true;
     threads := [AtLock addr1; AtCheck addr2] |}.

(** A count taken between two registrations has returned 1. *)
Definition counted_between : Locking.Config :=
  {| Locking.store := two_sessions;
     Locking.writer := false;
     Locking.readers := 0;
     Locking.callers :=
       [Locking.Getting (Done addr1 (Some 0));
        Locking.Counting (Locking.CountDone 1);
        Locking.Getting (Done addr2 (Some 1))] |}.

(** [addr1] is registered; a caller of [Close] holds the lock and waits for
    the signal of its session, while a counter and a caller for [addr2]
    wait for the lock. *)
Definition close_waits : Locking.Config :=
  {| Locking.store := (GetReplica addr1 (NewReplicaManager [])).2;
     Locking.writer := true;
     Locking.readers := 0;
     Locking.callers :=
       [Locking.Getting (Done addr1 (Some 0));
        Locking.Closing (Locking.CloseAtWait 0 []);
        Locking.Counting Locking.CountAtRLock;
        Locking.Getting (AtLock addr2)] |}.

End Concrete.

(** * Properties of the facade *)

Section FacadeFacts.
Import Facade.
Context `{Idl} {World : Type}.
Variable transport : World → Call → Reply * World.

(** What a typed method does with the reply to its call, case by case. *)
Lemma run_invoke (m : Method) ctx gpid (req : Request m) w result err w' :
  transport w (call_of m ctx gpid req) = ((result, err), w') →
  run transport (invoke m ctx gpid req) w [] =
    (match err with
     | Some e => Returned (None, Some e)
     | None =>
         match (assert_result m result).1 with
         | Some r => Returned (Success r, None)
         | None => Panicked
         end
     end, w', [call_of m ctx gpid req]).
Proof.
  intros Ht.
  destruct m; cbn in *; unfold call_of in Ht; cbn in Ht; rewrite Ht;
    (destruct err as [e|]; [reflexivity|]);
    destruct result as [|[?|]|[?|]|[?|]|[?|]|[?|]|[?|]|[?|]|[?|]|[?|]|];
    reflexivity.
Qed.

Lemma assert_result_of (m : Method) (p : option (RrdbResult (Response m))) :
  assert_result m (result_of m p) = (p, true).
Proof. destruct m; reflexivity. Qed.

Lemma discriminant_failure (m : Method) result :
  discriminant m result = ApplicationFailure →
  ∃ r, (assert_result m result).1 = Some r ∧ Success r = None.
Proof.
  unfold discriminant. destruct (assert_result m result) as [[r|] [|]];
    try discriminate.
  destruct (Success r) eqn:E; [discriminate|]. eauto.
Qed.

(** C1 (as the code has it): when the generic call returns without a
    transport error, a typed method never returns an error, whatever the
    discriminant of the result is.  If the result is the result structure
    of the issued operation, the method returns the success field of that
    structure with a nil error; so when the discriminant reports an
    application failure (the success field is unset) the caller receives a
    nil payload together with a nil error. *)
Theorem typed_method_does_not_check_discriminant
    (m : Method) ctx gpid (req : Request m) w result w' :
  transport w (call_of m ctx gpid req) = ((result, None), w') →
  (∀ v e, (run transport (invoke m ctx gpid req) w []).1.1
          ≠ Returned (v, Some e)) ∧
  (∀ r, result = result_of m (Some r) →
        run transport (invoke m ctx gpid req) w [] =
          (Returned (Success r, None), w', [call_of m ctx gpid req])) ∧
  (discriminant m result = ApplicationFailure →
   run transport (invoke m ctx gpid req) w [] =
     (Returned (None, None), w', [call_of m ctx gpid req])).
Proof.
  intros Ht. rewrite (run_invoke _ _ _ _ _ _ _ _ Ht). cbn.
  split; [|split].
  - intros v e. destruct (assert_result m result).1; congruence.
  - intros r ->. by rewrite assert_result_of.
  - intros (r & -> & ->)%discriminant_failure. reflexivity.
Qed.

(** C2: every typed method issues exactly one generic call, whatever the
    transport answers; the call carries the context and the partition
    identifier it was given, the caller's request inside the envelope of the
    operation, and the fixed wire name of the operation.  When the call
    reports no error and the result is the result structure of the issued
    operation, the method returns the success field of that structure and a
    nil error.  [ClearScanner] issues its one call in the same way. *)
Theorem typed_method_forwards_one_call :
  (∀ (m : Method) ctx gpid (req : Request m) w,
     (run transport (invoke m ctx gpid req) w []).2
       = [{| call_ctx := ctx; call_gpid := gpid;
             call_args := envelope m req; call_name := wire_name m |}] ∧
     ∀ r w',
       transport w (call_of m ctx gpid req)
         = ((result_of m (Some r), None), w') →
       run transport (invoke m ctx gpid req) w [] =
         (Returned (Success r, None), w', [call_of m ctx gpid req])) ∧
  (∀ ctx gpid contextId w,
     (run transport (ClearScanner ctx gpid contextId) w []).2
       = [{| call_ctx := ctx; call_gpid := gpid;
             call_args := RrdbClearScannerArgs contextId;
             call_name := "RPC_RRDB_RRDB_CLEAR_SCANNER" |}]).
Proof.
  split.
  - intros m ctx gpid req w. split.
    + destruct (transport w (call_of m ctx gpid req)) as [[result err] w'] eqn:Ht.
      by rewrite (run_invoke _ _ _ _ _ _ _ _ Ht).
    + intros r w' Ht. rewrite (run_invoke _ _ _ _ _ _ _ _ Ht).
      by rewrite assert_result_of.
  - intros ctx gpid contextId w. cbn.
    destruct (transport w _) as [[result [e|]] w']; reflexivity.
Qed.

(** C5 (as the code has it): when the generic call reports an error, every
    typed method returns that very error and a nil payload, and
    [ClearScanner] returns that very error; no further call is issued.  No
    typed method ever returns a payload together with an error; a method
    can return neither, when its call reports no error. *)
Theorem transport_error_is_returned_unchanged :
  (∀ (m : Method) ctx gpid (req : Request m) w result e w',
     transport w (call_of m ctx gpid req) = ((result, Some e), w') →
     run transport (invoke m ctx gpid req) w [] =
       (Returned (None, Some e), w', [call_of m ctx gpid req])) ∧
  (∀ ctx gpid contextId w result e w',
     transport w {| call_ctx := ctx; call_gpid := gpid;
                    call_args := RrdbClearScannerArgs contextId;
                    call_name := "RPC_RRDB_RRDB_CLEAR_SCANNER" |}
       = ((result, Some e), w') →
     run transport (ClearScanner ctx gpid contextId) w [] =
       (Returned (Some e), w',
        [{| call_ctx := ctx; call_gpid := gpid;
            call_args := RrdbClearScannerArgs contextId;
            call_name := "RPC_RRDB_RRDB_CLEAR_SCANNER" |}])) ∧
  (∀ (m : Method) ctx gpid (req : Request m) w v e,
     (run transport (invoke m ctx gpid req) w []).1.1
       ≠ Returned (Some v, Some e)).
Proof.
  split; [|split].
  - intros m ctx gpid req w result e w' Ht.
    by rewrite (run_invoke _ _ _ _ _ _ _ _ Ht).
  - intros ctx gpid contextId w result e w' Ht. cbn. by rewrite Ht.
  - intros m ctx gpid req w v e.
    destruct (transport w (call_of m ctx gpid req)) as [[result err] w'] eqn:Ht.
    rewrite (run_invoke _ _ _ _ _ _ _ _ Ht). cbn.
    destruct err; [congruence|].
    destruct (assert_result m result).1; congruence.
Qed.

End FacadeFacts.

(** ** The facade on concrete calls *)

Section FacadeExamples.
Import Facade.
Existing Instance example_idl.

(** C1, refuted as stated: the call of [Get] returns without a transport
    error and with a result whose success field is unset, so the
    discriminant reports an application failure; [Get] returns a nil
    payload and a nil error, where the claim asks for a non-nil error. *)
Lemma get_application_failure_returns_nil_nil :
  let result := PRrdbGetResult (Some {| Success := None |}) in
  discriminant MGet result = ApplicationFailure ∧
  constant_transport (result, None) 0
    {| call_ctx := tt; call_gpid := gpid_1_3;
       call_args := RrdbGetArgs key_a; call_name := "RPC_RRDB_RRDB_GET" |}
    = ((result, None), 1) ∧
  run (constant_transport (result, None)) (Get tt gpid_1_3 key_a) 0 [] =
    (Returned (None, None), 1,
     [{| call_ctx := tt; call_gpid := gpid_1_3;
         call_args := RrdbGetArgs key_a; call_name := "RPC_RRDB_RRDB_GET" |}]).
Proof. cbv zeta. split; [|split]; reflexivity. Qed.

(** C5, refuted as stated: the call of [Put] reports no error and its
    result has the success field unset; [Put] returns a nil payload and a
    nil error, so its caller receives neither a payload nor an error. *)
Lemma put_unset_success_returns_neither :
  let result := PRrdbPutResult (Some {| Success := None |}) in
  constant_transport (result, None) 0
    {| call_ctx := tt; call_gpid := gpid_1_3;
       call_args := RrdbPutArgs (Some {| Key := key_a; Value := value_b |});
       call_name := "RPC_RRDB_RRDB_PUT" |}
    = ((result, None), 1) ∧
  run (constant_transport (result, None))
      (Put tt gpid_1_3 key_a value_b) 0 [] =
    (Returned (None, None), 1,
     [{| call_ctx := tt; call_gpid := gpid_1_3;
         call_args :=
           RrdbPutArgs (Some {| Key := key_a; Value := value_b |});
         call_name := "RPC_RRDB_RRDB_PUT" |}]).
Proof. cbv zeta. split; reflexivity. Qed.

Lemma typed_method_does_not_check_discriminant_witness :
  let result := PRrdbScanResult (Some {| Success := None |}) in
  constant_transport (result, None) 7 (call_of MScan tt gpid_1_3 (Some 5%Z))
    = ((result, None), 8) ∧
  discriminant MScan result = ApplicationFailure ∧
  run (constant_transport (result, None)) (Scan tt gpid_1_3 (Some 5%Z)) 7 [] =
    (Returned (None, None), 8, [call_of MScan tt gpid_1_3 (Some 5%Z)]).
Proof.
  cbv zeta. split; [reflexivity|]. split; [reflexivity|].
  exact (proj2 (proj2 (typed_method_does_not_check_discriminant
           (constant_transport
              (PRrdbScanResult (Some {| Success := None |}), None))
           MScan tt gpid_1_3 (Some 5%Z) 7
           (PRrdbScanResult (Some {| Success := None |})) 8 eq_refl))
         eq_refl).
Defined.

Lemma typed_method_forwards_one_call_witness :
  let reply : Reply :=
    (PRrdbPutResult (Some {| Success := Some 0%Z |}), None) in
  run (constant_transport reply) (Put tt gpid_1_3 key_a value_b) 0 [] =
    (Returned (Some 0%Z, None), 1,
     [{| call_ctx := tt; call_gpid := gpid_1_3;
         call_args :=
           RrdbPutArgs (Some {| Key := key_a; Value := value_b |});
         call_name := "RPC_RRDB_RRDB_PUT" |}]).
Proof.
  cbv zeta.
  exact (proj2 (proj1 (typed_method_forwards_one_call
           (constant_transport
              (PRrdbPutResult (Some {| Success := Some 0%Z |}), None)))
           MPut tt gpid_1_3 (key_a, value_b) 0)
         {| Success := Some 0%Z |} 1 eq_refl).
Defined.

Lemma transport_error_is_returned_unchanged_witness :
  let reply : Reply := (NilIface, Some "context deadline exceeded") in
  run (constant_transport reply) (MultiGet tt gpid_1_3 (Some [])) 0 [] =
    (Returned (None, Some "context deadline exceeded"), 1,
     [call_of MMultiGet tt gpid_1_3 (Some [])]).
Proof.
  cbv zeta.
  exact (proj1 (transport_error_is_returned_unchanged
           (constant_transport (NilIface, Some "context deadline exceeded")))
         MMultiGet tt gpid_1_3 (Some []) 0 NilIface
         "context deadline exceeded" 1 eq_refl).
Defined.

Example string_of_session :
  String "10.0.0.1:34801" = "replica(10.0.0.1:34801)".
Proof. reflexivity. Qed.

End FacadeExamples.

(** * Properties of the pool *)

Section PoolFacts.
Import Pool.
Context `{Idl}.

Lemma GetReplica_registered a r σ :
  replicas σ !! a = Some r → GetReplica a σ = (Some r, σ).
Proof. intros E. unfold GetReplica. by rewrite E, E. Qed.

Lemma GetReplica_fresh a σ :
  replicas σ !! a = None →
  GetReplica a σ =
    (Some (length (heap σ)),
     {| heap := heap σ ++ [{| session := newNodeSession a kNodeTypeReplica |}];
        replicas := <[a := length (heap σ)]> (replicas σ) |}).
Proof.
  intros E. unfold GetReplica. rewrite E. cbn. by rewrite lookup_insert_eq.
Qed.

Lemma GetReplica_dom a σ :
  dom (replicas (GetReplica a σ).2) = {[a]} ∪ dom (replicas σ).
Proof.
  destruct (replicas σ !! a) as [r|] eqn:E.
  - rewrite (GetReplica_registered _ _ _ E). cbn.
    apply (elem_of_dom_2 (D := gset string)) in E. set_solver.
  - rewrite (GetReplica_fresh _ _ E). cbn. by rewrite dom_insert_L.
Qed.

Lemma register_all_dom addrs σ :
  dom (replicas (register_all addrs σ)) = list_to_set addrs ∪ dom (replicas σ).
Proof.
  unfold register_all. revert σ.
  induction addrs as [|a addrs IH]; intros σ; cbn [foldl].
  - set_solver.
  - rewrite IH, GetReplica_dom. set_solver.
Qed.

(** C3: on any pool, the first of two consecutive [GetReplica a] calls
    returns a session, which is from then on the entry registered for [a]
    (the entry that was there before, when there was one); the second call
    returns that same registered instance and leaves the store as the first
    call left it: it constructs nothing. *)
Theorem GetReplica_twice_same_instance (a : string) (σ : State) :
  ∃ r, (GetReplica a σ).1 = Some r ∧
       replicas (GetReplica a σ).2 !! a = Some r ∧
       (∀ r0, replicas σ !! a = Some r0 → r = r0) ∧
       GetReplica a (GetReplica a σ).2 = (Some r, (GetReplica a σ).2).
Proof.
  destruct (replicas σ !! a) as [r|] eqn:E.
  - exists r. rewrite (GetReplica_registered _ _ _ E). cbn.
    split; [done|]. split; [done|]. split; [by intros r0 [= <-]|].
    by apply GetReplica_registered.
  - exists (length (heap σ)). rewrite (GetReplica_fresh _ _ E). cbn.
    rewrite lookup_insert_eq.
    split; [done|]. split; [done|]. split; [discriminate|].
    apply GetReplica_registered. cbn. by rewrite lookup_insert_eq.
Qed.

(** C4: after any sequence of [GetReplica] calls on a pool that
    [NewReplicaManager] made, [ReplicaCount] is the number of distinct
    addresses of the sequence; an address registered once or more counts
    for one. *)
Theorem ReplicaCount_counts_distinct_addresses
    (h : list ReplicaSession) (addrs : list string) :
  ReplicaCount (register_all addrs (NewReplicaManager h))
    = length (remove_dups addrs) ∧
  ReplicaCount (register_all addrs (NewReplicaManager h))
    = size (list_to_set (C := gset string) addrs) ∧
  ∀ a M, ReplicaCount (register_all (replicate (S M) a) (NewReplicaManager h)) = 1.
Proof.
  assert (∀ l, ReplicaCount (register_all l (NewReplicaManager h))
               = size (list_to_set (C := gset string) l)) as Hsize.
  { intros l. unfold ReplicaCount.
    rewrite <- (size_dom (D := gset string)), register_all_dom. cbn.
    rewrite dom_empty_L. f_equal. set_solver. }
  split; [|split].
  - rewrite Hsize.
    rewrite <- (size_list_to_set (C := gset string) (remove_dups addrs))
      by apply NoDup_remove_dups.
    f_equal. apply set_eq. intros x.
    by rewrite !elem_of_list_to_set, elem_of_remove_dups.
  - apply Hsize.
  - intros a M. rewrite Hsize.
    replace (list_to_set (C := gset string) (replicate (S M) a))
      with ({[a]} : gset string); [apply size_singleton|].
    apply set_eq. intros x. rewrite elem_of_list_to_set, elem_of_singleton.
    rewrite elem_of_replicate. naive_solver lia.
Qed.

(** ** Close *)

Section CloseFacts.
Variable closing : loc → option Signal.

Lemma close_range_extends order tr b tr' :
  close_range closing order tr = (b, tr') → ∃ suf, tr' = tr ++ suf.
Proof.
  revert tr. induction order as [|[a r] rest IH]; intros tr; cbn.
  - intros [= <- <-]. exists []. by rewrite app_nil_r.
  - destruct (closing r) as [s|].
    + intros [suf ->]%IH. eexists. by rewrite <- !app_assoc.
    + intros [= <- <-]. by eexists.
Qed.

Lemma close_range_all order tr tr' :
  close_range closing order tr = (true, tr') →
  ∀ a r, (a, r) ∈ order →
    ∃ s tr1 tr2, closing r = Some s ∧
      tr' = tr1 ++ [CloseCalled r; SignalReceived r s] ++ tr2.
Proof.
  revert tr. induction order as [|[a0 r0] rest IH]; intros tr; cbn.
  - intros _ a r Hin. by apply elem_of_nil in Hin.
  - destruct (closing r0) as [s|] eqn:Es; [|discriminate].
    intros Hr a r [[= -> ->]|Hin]%elem_of_cons.
    + apply close_range_extends in Hr as [suf ->].
      exists s, tr, suf. split; [done|]. by rewrite <- !app_assoc.
    + by apply (IH _ Hr a).
Qed.

Lemma close_range_blocked order tr a r :
  (a, r) ∈ order → closing r = None →
  (close_range closing order tr).1 = false.
Proof.
  revert tr. induction order as [|[a0 r0] rest IH]; intros tr Hin Hr; cbn.
  - by apply elem_of_nil in Hin.
  - apply elem_of_cons in Hin as [[= <- <-]|Hin].
    + by rewrite Hr.
    + destruct (closing r0); [by apply IH|done].
Qed.

Lemma close_range_completes order tr :
  (∀ a r, (a, r) ∈ order → is_Some (closing r)) →
  (close_range closing order tr).1 = true.
Proof.
  revert tr. induction order as [|[a0 r0] rest IH]; intros tr Hall; cbn.
  - done.
  - destruct (Hall a0 r0) as [s ->]; [by left|].
    apply IH. intros a r Hin. apply (Hall a). by right.
Qed.

Lemma Close_result order σ :
  Close closing order σ =
    (if (close_range closing order []).1
     then CloseReturned None else CloseBlocked,
     (close_range closing order []).2, σ).
Proof. unfold Close. by destruct (close_range _ _ _) as [[|] tr]. Qed.

(** C6: [Close] ranges over every entry of the map.  When it returns, each
    session registered at the call has had its close invoked and, after
    that, its completion signal received; a registered session whose signal
    never comes keeps [Close] from returning; and when every registered
    session signals, [Close] does return. *)
Theorem Close_waits_for_every_session
    (σ : State) (order : list (string * loc)) :
  range_order σ order →
  (∀ err tr σ', Close closing order σ = (CloseReturned err, tr, σ') →
     ∀ a r, replicas σ !! a = Some r →
       ∃ s tr1 tr2, closing r = Some s ∧
         tr = tr1 ++ [CloseCalled r; SignalReceived r s] ++ tr2) ∧
  (∀ a r, replicas σ !! a = Some r → closing r = None →
     (Close closing order σ).1.1 = CloseBlocked) ∧
  ((∀ a r, replicas σ !! a = Some r → is_Some (closing r)) →
     (Close closing order σ).1.1 = CloseReturned None).
Proof.
  intros Hord.
  assert (∀ a r, (a, r) ∈ order ↔ replicas σ !! a = Some r) as Hin.
  { intros a r. unfold range_order in Hord.
    by rewrite Hord, elem_of_map_to_list. }
  rewrite Close_result. cbn. split; [|split].
  - intros err tr σ'.
    destruct (close_range closing order []) as [[|] tr0] eqn:E; cbn;
      [|discriminate].
    intros [= <- <- <-] a r Hr. by apply (close_range_all _ _ _ E a), Hin.
  - intros a r Hr Hnone.
    by rewrite (close_range_blocked order [] a r (proj2 (Hin a r) Hr) Hnone).
  - intros Hall. rewrite close_range_completes; [done|].
    intros a r Hr%Hin. by apply (Hall a).
Qed.

(** C7 (as the code has it): [Close] never returns an error.  It returns
    nil as soon as every session of the range has delivered its signal,
    whatever the signals carry. *)
Theorem Close_returns_nil_error (order : list (string * loc)) (σ : State) :
  (∀ err, (Close closing order σ).1.1 = CloseReturned err → err = None) ∧
  ((∀ a r, (a, r) ∈ order → is_Some (closing r)) →
     Close closing order σ =
       (CloseReturned None, (close_range closing order []).2, σ)).
Proof.
  rewrite Close_result. cbn. split.
  - destruct (close_range closing order []).1; congruence.
  - intros Hall. by rewrite close_range_completes.
Qed.

(** C8 (as the code has it): [Close] leaves the pool as usable as it was.
    After it, a [GetReplica] call for an address that is not registered
    constructs a new session and registers it, as it does before a close. *)
Theorem GetReplica_after_Close_still_creates
    (order : list (string * loc)) (σ : State) (a : string) :
  replicas σ !! a = None →
  GetReplica a (Close closing order σ).2 =
    (Some (length (heap σ)),
     {| heap := heap σ ++ [{| session := newNodeSession a kNodeTypeReplica |}];
        replicas := <[a := length (heap σ)]> (replicas σ) |}).
Proof.
  intros E. rewrite Close_result. cbn. by apply GetReplica_fresh.
Qed.

(** C10: [Close] removes no entry.  The store after [Close] is the store
    before it, so [ReplicaCount] is unchanged, and [GetReplica] for a
    registered address returns the instance that was registered and
    constructs nothing; when [Close] returned, that instance is one whose
    completion signal [Close] has received. *)
Theorem Close_keeps_every_entry (order : list (string * loc)) (σ : State) :
  (Close closing order σ).2 = σ ∧
  ReplicaCount (Close closing order σ).2 = ReplicaCount σ ∧
  ∀ a r, replicas σ !! a = Some r →
    GetReplica a (Close closing order σ).2 = (Some r, σ) ∧
    (range_order σ order →
     (Close closing order σ).1.1 = CloseReturned None →
     ∃ s, SignalReceived r s ∈ (Close closing order σ).1.2).
Proof.
  rewrite Close_result. cbn. split; [done|]. split; [done|].
  intros a r Hr. split; [by apply GetReplica_registered|].
  intros Hord Hret.
  destruct (close_range closing order []) as [[|] tr] eqn:E; [|done].
  assert ((a, r) ∈ order) as Hin.
  { unfold range_order in Hord. by rewrite Hord, elem_of_map_to_list. }
  destruct (close_range_all _ _ _ E a r Hin) as (s & tr1 & tr2 & _ & ->).
  exists s. cbn. rewrite elem_of_app. right. set_solver.
Qed.

End CloseFacts.
End PoolFacts.

(** ** The pool on concrete calls *)

Section PoolExamples.
Import Pool.
Existing Instance example_idl.

Lemma two_sessions_range :
  range_order two_sessions [(addr2, 1); (addr1, 0)].
Proof.
  unfold range_order.
  replace (map_to_list (replicas two_sessions))
    with [(addr1, 0); (addr2, 1)] by (vm_compute; reflexivity).
  apply Permutation_swap.
Defined.

Lemma Close_waits_for_every_session_witness :
  ∃ s tr1 tr2, closes_cleanly 0 = Some s ∧
    [CloseCalled 1; SignalReceived 1 None;
     CloseCalled 0; SignalReceived 0 None]
      = tr1 ++ [CloseCalled 0; SignalReceived 0 s] ++ tr2.
Proof.
  exact (proj1 (Close_waits_for_every_session closes_cleanly two_sessions
                  [(addr2, 1); (addr1, 0)] two_sessions_range)
           None _ two_sessions eq_refl addr1 0 eq_refl).
Defined.

(** C7, refuted as stated: the one registered session reports a failure of
    its close on its signal; [Close] receives the signal and returns a nil
    error all the same. *)
Lemma Close_drops_close_failure :
  let σ := (GetReplica addr1 (NewReplicaManager [])).2 in
  replicas σ !! addr1 = Some 0 ∧
  closes_with_failure 0 = Some (Some "broken pipe") ∧
  Close closes_with_failure [(addr1, 0)] σ =
    (CloseReturned None,
     [CloseCalled 0; SignalReceived 0 (Some "broken pipe")], σ).
Proof. cbv zeta. split; [|split]; reflexivity. Qed.

Lemma Close_returns_nil_error_witness :
  Close closes_with_failure [(addr2, 1); (addr1, 0)] two_sessions =
    (CloseReturned None,
     [CloseCalled 1; SignalReceived 1 (Some "broken pipe");
      CloseCalled 0; SignalReceived 0 (Some "broken pipe")],
     two_sessions).
Proof.
  exact (proj2 (Close_returns_nil_error closes_with_failure
                  [(addr2, 1); (addr1, 0)] two_sessions)
           (λ a r _, ex_intro _ (Some "broken pipe") eq_refl)).
Defined.

(** C8, refuted as stated: on a new pool, [Close] returns and the
    [GetReplica] call that follows constructs and registers a session. *)
Lemma session_created_after_Close :
  exec closes_cleanly [OpClose []; OpGetReplica addr1] (NewReplicaManager []) =
    ([ObsClose (CloseReturned None) []; ObsGetReplica addr1 (Some 0) true],
     {| heap := [{| session := newNodeSession addr1 kNodeTypeReplica |}];
        replicas := {[addr1 := 0]} |}) ∧
  created_after_close false
    (exec closes_cleanly [OpClose []; OpGetReplica addr1]
       (NewReplicaManager [])).1 = true.
Proof. split; reflexivity. Qed.

Lemma GetReplica_after_Close_still_creates_witness :
  replicas two_sessions !! "10.0.0.3:34801" = None ∧
  GetReplica "10.0.0.3:34801"
    (Close closes_cleanly [(addr2, 1); (addr1, 0)] two_sessions).2 =
    (Some 2,
     {| heap := heap two_sessions ++
          [{| session := newNodeSession "10.0.0.3:34801" kNodeTypeReplica |}];
        replicas := <["10.0.0.3:34801" := 2]> (replicas two_sessions) |}).
Proof.
  split; [reflexivity|].
  exact (GetReplica_after_Close_still_creates closes_cleanly
           [(addr2, 1); (addr1, 0)] two_sessions "10.0.0.3:34801" eq_refl).
Defined.

Lemma Close_keeps_every_entry_witness :
  ReplicaCount (Close closes_cleanly [(addr2, 1); (addr1, 0)] two_sessions).2
    = ReplicaCount two_sessions ∧
  GetReplica addr2
    (Close closes_cleanly [(addr2, 1); (addr1, 0)] two_sessions).2
    = (Some 1, two_sessions).
Proof.
  split.
  - exact (proj1 (proj2 (Close_keeps_every_entry closes_cleanly
                           [(addr2, 1); (addr1, 0)] two_sessions))).
  - exact (proj1 (proj2 (proj2 (Close_keeps_every_entry closes_cleanly
                                  [(addr2, 1); (addr1, 0)] two_sessions))
                    addr2 1 eq_refl)).
Defined.

(** The scenario of the design document: counts 0, 1, 2, 2, and the same
    handle for the repeated address. *)
Example count_scenario :
  let σ0 := NewReplicaManager [] in
  let '(r1, σ1) := GetReplica addr1 σ0 in
  let '(r2, σ2) := GetReplica addr2 σ1 in
  let '(r3, σ3) := GetReplica addr1 σ2 in
  (ReplicaCount σ0, ReplicaCount σ1, ReplicaCount σ2, ReplicaCount σ3)
    = (0, 1, 2, 2) ∧ r3 = r1 ∧ r1 = Some 0 ∧ r2 = Some 1.
Proof. vm_compute. repeat split. Qed.

End PoolExamples.

(** * Properties of concurrent callers *)

Section RaceFacts.
Import Pool Race.

Lemma lookup_update (l : list Thread) i j t' t :
  <[i := t']> l !! j = Some t →
  (j = i ∧ t = t') ∨ (j ≠ i ∧ l !! j = Some t).
Proof.
  intros [(-> & -> & _)|[? ?]]%list_lookup_insert_Some; [left|right]; done.
Qed.

Ltac updated :=
  repeat match goal with
  | H : <[_ := _]> _ !! _ = Some _ |- _ =>
      apply lookup_update in H as [[-> ->]|[? H]]
  end.

Ltac one_holder :=
  match goal with
  | Hone : ∀ i j ti tj, _ → _ → _ → _ → i = j |- _ =>
      solve [ eapply Hone; eauto | symmetry; eapply Hone; eauto ]
  end.

Section OneAddress.
Variables (a : string) (σ0 : State).
Hypothesis fresh : replicas σ0 !! a = None.

Lemma step_preserves_inv i c c' :
  Inv a σ0 c → step i c = Some c' → Inv a σ0 c'.
Proof.
  intros [Haddr Hfree Hheld Hone Hstore] Hstep.
  unfold step in Hstep.
  destruct (threads c !! i) as [t|] eqn:Ei; [|discriminate].
  assert (i < length (threads c)) as Hlen by (by eapply lookup_lt_Some).
  pose proof (Haddr _ _ Ei) as Ha.
  destruct t as [b|b|b|b|b ret|b ret]; cbn in Ha; subst b.
  - (* the lock is taken *)
    destruct (locked c) eqn:El; [discriminate|]. injection Hstep as <-.
    specialize (Hfree eq_refl).
    split; cbn.
    + intros j t Hj. updated; eauto.
    + discriminate.
    + intros _. exists i, (AtCheck a).
      by rewrite list_lookup_insert_eq.
    + intros j k tj tk Hj Hk Cj Ck. updated; try done; exfalso;
        match goal with
        | Hx : threads c !! _ = Some ?t, C : in_cs ?t = true |- _ =>
            by rewrite (Hfree _ _ Hx) in C
        end.
    + destruct Hstore as [[Hs He]|[Hs Hl]]; [left|right];
        (split; [done|]); intros j t Hj; updated; cbn; eauto.
  - (* the entry is tested *)
    injection Hstep as <-.
    assert (locked c = true) as El.
    { destruct (locked c) eqn:El; [done|]. by pose proof (Hfree eq_refl _ _ Ei). }
    split; cbn.
    + intros j t Hj. updated; eauto. by destruct (replicas (store c) !! a).
    + by rewrite El.
    + intros _. eexists i, _. rewrite list_lookup_insert_eq by done.
      split; [done|]. by destruct (replicas (store c) !! a).
    + intros j k tj tk Hj Hk Cj Ck. updated; try done; one_holder.
    + destruct Hstore as [[Hs He]|[Hs Hl]]; [left|right];
        (split; [done|]); intros j t Hj; updated; eauto.
      * rewrite Hs, fresh. done.
      * rewrite Hs. cbn. by rewrite lookup_insert_eq.
  - (* the session is constructed and registered *)
    cbn in Hstep. injection Hstep as <-.
    destruct Hstore as [[Hs He]|[Hs Hl]]; [|by destruct (Hl _ _ Ei)].
    split; cbn.
    + intros j t Hj. updated; eauto.
    + intros El. by pose proof (Hfree El _ _ Ei).
    + intros _. exists i, (AtReturn a). by rewrite list_lookup_insert_eq.
    + intros j k tj tk Hj Hk Cj Ck. updated; try done; one_holder.
    + right. rewrite Hs. split; [done|].
      intros j t Hj. updated; [done|].
      pose proof (He _ _ Hj) as Et.
      destruct t; try done.
      exfalso. by pose proof (Hone _ _ _ _ Ei Hj eq_refl eq_refl).
  - (* the entry is read *)
    injection Hstep as <-.
    destruct Hstore as [[Hs He]|[Hs Hl]]; [by destruct (He _ _ Ei)|].
    split; cbn.
    + intros j t Hj. updated; eauto.
    + intros El. by pose proof (Hfree El _ _ Ei).
    + intros _. eexists i, _. by rewrite list_lookup_insert_eq.
    + intros j k tj tk Hj Hk Cj Ck. updated; try done; one_holder.
    + right. split; [done|].
      intros j t Hj. updated; eauto.
      rewrite Hs. cbn. by rewrite lookup_insert_eq.
  - (* the lock is released *)
    injection Hstep as <-.
    split; cbn.
    + intros j t Hj. updated; eauto.
    + intros _ j t Hj. updated; [done|].
      destruct (in_cs t) eqn:Ct; [|done].
      by pose proof (Hone _ _ _ _ Ei Hj eq_refl Ct).
    + discriminate.
    + intros j k tj tk Hj Hk Cj Ck. updated; try done; one_holder.
    + destruct Hstore as [[Hs He]|[Hs Hl]]; [by destruct (He _ _ Ei)|].
      right. split; [done|].
      intros j t Hj. updated; eauto. by apply (Hl _ _ Ei).
  - discriminate.
Qed.

Lemma init_inv N : Inv a σ0 (init σ0 (replicate N a)).
Proof.
  assert (∀ i t, (AtLock <$> replicate N a) !! i = Some t → t = AtLock a)
    as Hall.
  { intros i t. rewrite list_lookup_fmap.
    destruct (replicate N a !! i) as [b|] eqn:E; [|done].
    apply lookup_replicate in E as [-> _]. by intros [= <-]. }
  split; cbn.
  - by intros i t ->%Hall.
  - by intros _ i t ->%Hall.
  - discriminate.
  - by intros i j ti tj ->%Hall.
  - left. split; [done|]. by intros i t ->%Hall.
Qed.

Lemma exec_preserves_inv sched c c' :
  Inv a σ0 c → exec sched c = Some c' → Inv a σ0 c'.
Proof.
  revert c. induction sched as [|i sched IH]; intros c Hinv; cbn.
  - by intros [= <-].
  - destruct (step i c) as [c1|] eqn:Es; [|discriminate].
    apply IH. by eapply step_preserves_inv.
Qed.

(** Where every caller has returned, the store holds the one new session
    and every caller has returned it. *)
Lemma inv_all_done c :
  Inv a σ0 c → threads c ≠ [] → all_done c = true →
  store c = registered a σ0 ∧
  threads c = replicate (length (threads c)) (Done a (Some (length (heap σ0)))).
Proof.
  intros [Haddr _ _ _ Hstore] Hne Hdone.
  unfold all_done in Hdone. apply Is_true_true, forallb_True in Hdone.
  assert (∀ i t, threads c !! i = Some t → ∃ ret, t = Done a ret) as Hd.
  { intros i t Ht.
    pose proof (Forall_lookup_1 _ _ _ _ Hdone Ht) as Dt.
    pose proof (Haddr _ _ Ht) as At.
    destruct t; try done. cbn in At. subst. by eexists. }
  destruct Hstore as [[Hs He]|[Hs Hl]].
  - destruct (threads c) as [|t ts] eqn:Et; [done|].
    destruct (Hd 0 t eq_refl) as [ret ->]. by destruct (He 0 _ eq_refl).
  - split; [done|].
    apply list_eq_same_length with (length (threads c));
      [by rewrite length_replicate|done|].
    intros i x y Hi Hx Hy.
    apply lookup_replicate in Hy as [-> _].
    destruct (Hd _ _ Hx) as [ret ->].
    pose proof (Hl _ _ Hx) as Hret. cbn in Hret. by subst.
Qed.

End OneAddress.

(** A caller that has not returned and holds no lock waits at the lock. *)
Lemma waiting_thread t : is_done t = false → in_cs t = false → ∃ b, t = AtLock b.
Proof. destruct t; try done. by eexists. Qed.

Lemma holder_steps i t c :
  threads c !! i = Some t → in_cs t = true → is_Some (step i c).
Proof.
  intros Ei Ct. unfold step. rewrite Ei. by destruct t.
Qed.

Lemma step_length i c c' :
  step i c = Some c' → length (threads c') = length (threads c).
Proof.
  unfold step. destruct (threads c !! i) as [[]|]; try discriminate;
    try (by intros [= <-]; cbn; rewrite length_insert).
  destruct (locked c); [discriminate|].
  by intros [= <-]; cbn; rewrite length_insert.
Qed.

Lemma exec_length sched c c' :
  exec sched c = Some c' → length (threads c') = length (threads c).
Proof.
  revert c. induction sched as [|i sched IH]; intros c; cbn.
  - by intros [= <-].
  - destruct (step i c) as [c1|] eqn:Es; [|discriminate].
    intros ->%IH. by eapply step_length.
Qed.

Lemma sum_steps_update (l : list Thread) i t t' :
  l !! i = Some t →
  sum_list (steps_left <$> <[i := t']> l) + steps_left t
    = sum_list (steps_left <$> l) + steps_left t'.
Proof.
  revert i. induction l as [|x l IH]; intros [|i] Hi; try done.
  - injection Hi as ->. rewrite !fmap_cons. cbn [sum_list sum_list_with].
    change (<[0 := t']> (t :: l)) with (t' :: l).
    rewrite fmap_cons. cbn [sum_list sum_list_with]. unfold sum_list, id. lia.
  - change (<[S i := t']> (x :: l)) with (x :: <[i := t']> l).
    rewrite !fmap_cons. cbn [sum_list sum_list_with].
    specialize (IH i Hi). unfold sum_list, id in *. lia.
Qed.

Lemma step_budget i c c' : step i c = Some c' → budget c' < budget c.
Proof.
  unfold step, budget.
  destruct (threads c !! i) as [t|] eqn:Ei; [|discriminate].
  destruct t; try discriminate.
  - destruct (locked c); [discriminate|]. intros [= <-]. cbn.
    pose proof (sum_steps_update _ _ _ (AtCheck a) Ei). cbn in *. lia.
  - intros [= <-]. cbn.
    match goal with |- context [<[i := ?t']> _] =>
      pose proof (sum_steps_update _ _ _ t' Ei) end.
    destruct (replicas (store c) !! a); cbn in *; lia.
  - intros [= <-]. cbn.
    pose proof (sum_steps_update _ _ _ (AtReturn a) Ei). cbn in *. lia.
  - intros [= <-]. cbn.
    match goal with |- context [<[i := ?t']> _] =>
      pose proof (sum_steps_update _ _ _ t' Ei) end.
    cbn in *. lia.
  - intros [= <-]. cbn.
    pose proof (sum_steps_update _ _ _ (Done a ret) Ei). cbn in *. lia.
Qed.

Lemma exec_budget sched c c' :
  exec sched c = Some c' → (length sched + budget c' ≤ budget c)%nat.
Proof.
  revert c. induction sched as [|i sched IH]; intros c; cbn.
  - intros [= <-]. lia.
  - destruct (step i c) as [c1|] eqn:Es; [|discriminate].
    intros ?%IH. apply step_budget in Es. lia.
Qed.

Lemma init_budget σ addrs : budget (init σ addrs) = 5 * length addrs.
Proof.
  unfold budget, init. cbn. induction addrs as [|b l IH]; cbn in *; lia.
Qed.

Lemma not_all_done_lookup (l : list Thread) :
  forallb is_done l = false → ∃ i t, l !! i = Some t ∧ is_done t = false.
Proof.
  induction l as [|x l IH]; cbn; [discriminate|].
  destruct (is_done x) eqn:Ex; cbn.
  - intros (i & t & Hi & Ht)%IH. by exists (S i), t.
  - intros _. by exists 0, x.
Qed.

(** No deadlock: unless every caller has returned, some caller has a
    step. *)
Lemma inv_progress a σ0 c :
  Inv a σ0 c → all_done c = false → ∃ i c', step i c = Some c'.
Proof.
  intros [_ Hfree Hheld _ _] Hnd.
  destruct (locked c) eqn:El.
  - destruct (Hheld eq_refl) as (i & t & Ei & Ct).
    destruct (holder_steps _ _ _ Ei Ct) as [c' Hc']. eauto.
  - destruct (not_all_done_lookup _ Hnd) as (i & t & Ei & Ht).
    destruct (waiting_thread t) as [b ->];
      [done|by apply (Hfree eq_refl i)|].
    exists i. unfold step. rewrite Ei, El. eauto.
Qed.

(** A single caller, run to its end, does what [GetReplica] does. *)
Lemma single_caller_is_GetReplica (a : string) (σ : State) :
  ∃ sched,
    exec sched (init σ [a]) =
      Some {| store := (GetReplica a σ).2; locked := false;
              threads := [Done a (GetReplica a σ).1] |}.
Proof.
  destruct (replicas σ !! a) as [r|] eqn:E.
  - exists [0; 0; 0; 0]. rewrite (GetReplica_registered _ _ _ E).
    cbn. unfold step. cbn. rewrite E. cbn. by rewrite E.
  - exists [0; 0; 0; 0; 0]. rewrite (GetReplica_fresh _ _ E).
    cbn. unfold step. cbn. rewrite E. cbn. by rewrite lookup_insert_eq.
Qed.

(** C9: let [N] callers, one or more and so two or more as well, run
    [GetReplica a] at once on a pool that does not hold [a], under any
    schedule.  Once all of them have returned, exactly one session has been
    constructed, it is the one registered for [a], and every caller has
    returned that instance.  At no point of the execution has more than one
    session been constructed.  The callers cannot get stuck: unless all have
    returned some caller has a step, and no execution is longer than [5 * N]
    steps. *)
Theorem concurrent_GetReplica_constructs_once
    (N : nat) (σ0 : State) (a : string) (sched : list nat) (c : Config) :
  (1 ≤ N)%nat →
  replicas σ0 !! a = None →
  exec sched (init σ0 (replicate N a)) = Some c →
  (all_done c = true →
     heap (store c) =
       heap σ0 ++ [{| session := newNodeSession a kNodeTypeReplica |}] ∧
     replicas (store c) = <[a := length (heap σ0)]> (replicas σ0) ∧
     threads c = replicate N (Done a (Some (length (heap σ0))))) ∧
  (length (heap (store c)) ≤ S (length (heap σ0)))%nat ∧
  (all_done c = false → ∃ i c', step i c = Some c') ∧
  (length sched + budget c ≤ 5 * N)%nat.
Proof.
  intros HN Hfresh Hexec.
  pose proof (exec_preserves_inv a σ0 Hfresh _ _ _ (init_inv a σ0 N) Hexec)
    as Hinv.
  pose proof (exec_length _ _ _ Hexec) as Hlen. cbn in Hlen.
  rewrite length_fmap, length_replicate in Hlen.
  split; [|split; [|split]].
  - intros Hdone.
    destruct (inv_all_done a σ0 c Hinv) as [Hs Ht]; [|done|].
    { intros Hnil. rewrite Hnil in Hlen. cbn in Hlen. lia. }
    rewrite Hlen in Ht. by rewrite Hs.
  - destruct (inv_store _ _ _ Hinv) as [[-> _]|[-> _]]; cbn; [lia|].
    rewrite length_app. cbn. lia.
  - by apply (inv_progress a σ0).
  - apply exec_budget in Hexec. rewrite init_budget, length_replicate in Hexec.
    done.
Qed.

End RaceFacts.

Section RaceExamples.
Import Pool Race.

(** Three callers; the second takes the lock first, then the third, then
    the first. *)
Lemma concurrent_GetReplica_constructs_once_witness :
  exec [1; 1; 1; 1; 1; 2; 2; 2; 2; 0; 0; 0; 0]
       (init (NewReplicaManager []) (replicate 3 addr1))
    = Some three_returned ∧
  all_done three_returned = true ∧
  threads three_returned =
    replicate 3 (Done addr1 (Some (length (heap (NewReplicaManager []))))).
Proof.
  split; [reflexivity|]. split; [reflexivity|].
  exact (proj2 (proj2 (proj1
           (concurrent_GetReplica_constructs_once 3 (NewReplicaManager [])
              addr1 [1; 1; 1; 1; 1; 2; 2; 2; 2; 0; 0; 0; 0] three_returned
              (le_S _ _ (le_S _ _ (le_n 1))) eq_refl eq_refl)
           eq_refl))).
Defined.

(** A caller that waits for the lock has no step. *)
Example waiting_caller_has_no_step :
  exec [1; 0] (init (NewReplicaManager []) [addr1; addr1]) = None.
Proof. reflexivity. Qed.

End RaceExamples.

(** * Further properties of the facade *)

Section FacadeMore.
Import Facade.
Context `{Idl} {World : Type}.
Variable transport : World → Call → Reply * World.

Lemma run_invoke_log (m : Method) ctx gpid (req : Request m) w :
  (run transport (invoke m ctx gpid req) w []).2 = [call_of m ctx gpid req].
Proof.
  destruct (transport w (call_of m ctx gpid req)) as [[result err] w'] eqn:Ht.
  by rewrite (run_invoke _ _ _ _ _ _ _ _ _ Ht).
Qed.

Lemma assert_result_nil (m : Method) result :
  (assert_result m result).1 = None ↔ ∀ r, result ≠ result_of m (Some r).
Proof.
  split.
  - intros Hn r ->. by rewrite assert_result_of in Hn.
  - intros Hne.
    destruct m;
      destruct result as [|[?|]|[?|]|[?|]|[?|]|[?|]|[?|]|[?|]|[?|]|[?|]|];
      try reflexivity; by edestruct Hne.
Qed.

Lemma wire_name_inj (m1 m2 : Method) : wire_name m1 = wire_name m2 → m1 = m2.
Proof. destruct m1, m2; cbn; intros E; try reflexivity; discriminate E. Qed.

Lemma envelope_inj (m : Method) (req1 req2 : Request m) :
  envelope m req1 = envelope m req2 → req1 = req2.
Proof.
  destruct m; cbn in *; try (by intros [= ->]).
  destruct req1, req2. cbn. by intros [= -> ->].
Qed.

Lemma ClearScanner_log ctx gpid contextId w :
  (run transport (ClearScanner ctx gpid contextId) w []).2 =
    [{| call_ctx := ctx; call_gpid := gpid;
        call_args := RrdbClearScannerArgs contextId;
        call_name := "RPC_RRDB_RRDB_CLEAR_SCANNER" |}].
Proof. cbn. destruct (transport w _) as [[result [e|]] w']; reflexivity. Qed.

(** X1: [ClearScanner] issues its one call and returns the error of that
    call as it is, nil included; it does not look at the result of the call
    and never panics. *)
Theorem ClearScanner_returns_error_of_call ctx gpid contextId w :
  let c := {| call_ctx := ctx; call_gpid := gpid;
              call_args := RrdbClearScannerArgs contextId;
              call_name := "RPC_RRDB_RRDB_CLEAR_SCANNER" |} in
  run transport (ClearScanner ctx gpid contextId) w [] =
    (Returned (transport w c).1.2, (transport w c).2, [c]).
Proof.
  cbn. destruct (transport w _) as [[result [e|]] w']; reflexivity.
Qed.

(** X2: a result that is not a non-nil pointer to the result structure
    of the issued operation (a nil interface, a nil pointer, a value of
    another type) never becomes a payload.  When the call reports no error
    and carries such a result, the method has issued its one call and
    returns neither a payload nor an error, whether the getter panics on
    the nil pointer that the failed assertion leaves or hands back nil. *)
Theorem unexpected_result_yields_no_payload
    (m : Method) ctx gpid (req : Request m) w result w' :
  transport w (call_of m ctx gpid req) = ((result, None), w') →
  (∀ r, result ≠ result_of m (Some r)) →
  (∀ v err, (run transport (invoke m ctx gpid req) w []).1.1
            ≠ Returned (Some v, err)) ∧
  (∀ v e, (run transport (invoke m ctx gpid req) w []).1.1
          ≠ Returned (v, Some e)) ∧
  (run transport (invoke m ctx gpid req) w []).1.2 = w' ∧
  (run transport (invoke m ctx gpid req) w []).2 = [call_of m ctx gpid req].
Proof.
  intros Ht Hne%assert_result_nil.
  rewrite (run_invoke _ _ _ _ _ _ _ _ _ Ht), Hne. cbn.
  split; [|split]; done.
Qed.

(** X3: the call a method issues tells the operation and the request.  Two
    typed methods whose calls carry the same wire name are the same method;
    no typed method uses the wire name of [ClearScanner]; and two
    invocations of one method that issue the same call were given the same
    context, partition and request. *)
Theorem issued_call_determines_operation :
  (∀ (m1 m2 : Method) ctx1 gpid1 req1 w1 ctx2 gpid2 req2 w2,
     call_name <$> (run transport (invoke m1 ctx1 gpid1 req1) w1 []).2
       = call_name <$> (run transport (invoke m2 ctx2 gpid2 req2) w2 []).2 →
     m1 = m2) ∧
  (∀ (m : Method) ctx1 gpid1 req w1 ctx2 gpid2 contextId w2,
     call_name <$> (run transport (invoke m ctx1 gpid1 req) w1 []).2
       ≠ call_name <$>
           (run transport (ClearScanner ctx2 gpid2 contextId) w2 []).2) ∧
  (∀ (m : Method) ctx1 gpid1 req1 w1 ctx2 gpid2 req2 w2,
     (run transport (invoke m ctx1 gpid1 req1) w1 []).2
       = (run transport (invoke m ctx2 gpid2 req2) w2 []).2 →
     ctx1 = ctx2 ∧ gpid1 = gpid2 ∧ req1 = req2).
Proof.
  split; [|split].
  - intros m1 m2 ctx1 gpid1 req1 w1 ctx2 gpid2 req2 w2.
    rewrite !run_invoke_log. cbn. intros [= E]. by apply wire_name_inj.
  - intros m ctx1 gpid1 req w1 ctx2 gpid2 contextId w2.
    rewrite run_invoke_log, ClearScanner_log. cbn.
    intros [= E]. destruct m; discriminate E.
  - intros m ctx1 gpid1 req1 w1 ctx2 gpid2 req2 w2.
    rewrite !run_invoke_log. unfold call_of. intros [= -> -> E].
    by apply envelope_inj in E.
Qed.

End FacadeMore.

(** * Further properties of the pool *)

Section PoolMore.
Import Pool.
Context `{Idl}.

Lemma GetReplica_keeps_entries a σ b r :
  replicas σ !! b = Some r → replicas (GetReplica a σ).2 !! b = Some r.
Proof.
  intros Hb. destruct (replicas σ !! a) as [ra|] eqn:E.
  - by rewrite (GetReplica_registered _ _ _ E).
  - rewrite (GetReplica_fresh _ _ E). cbn.
    rewrite lookup_insert_ne; [done|]. intros ->. congruence.
Qed.

Lemma GetReplica_count a σ :
  ReplicaCount (GetReplica a σ).2 =
    ReplicaCount σ + match replicas σ !! a with Some _ => 0 | None => 1 end.
Proof.
  unfold ReplicaCount. destruct (replicas σ !! a) as [ra|] eqn:E.
  - rewrite (GetReplica_registered _ _ _ E). cbn. lia.
  - rewrite (GetReplica_fresh _ _ E). cbn.
    rewrite map_size_insert_None by done. lia.
Qed.

Lemma GetReplica_inv h a σ : pool_inv h σ → pool_inv h (GetReplica a σ).2.
Proof.
  intros Hinv. destruct (replicas σ !! a) as [ra|] eqn:E.
  - by rewrite (GetReplica_registered _ _ _ E).
  - destruct Hinv as [Hentry (new & Hheap & Hnew)].
    rewrite (GetReplica_fresh _ _ E). split; cbn.
    + intros b r. rewrite lookup_insert. case_decide as Hab.
      * subst b. intros [= <-]. split.
        { rewrite Hheap, length_app. lia. }
        by rewrite lookup_app_r, Nat.sub_diag.
      * intros Hb. destruct (Hentry _ _ Hb) as [Hle Hr]. split; [done|].
        by apply lookup_app_l_Some.
    + exists (new ++ [{| session := newNodeSession a kNodeTypeReplica |}]).
      rewrite Hheap, <- app_assoc. split; [done|].
      rewrite length_app, map_size_insert_None by done. cbn. lia.
Qed.

Lemma NewReplicaManager_inv h : pool_inv h (NewReplicaManager h).
Proof.
  split; cbn.
  - intros a r. by rewrite lookup_empty.
  - exists []. by rewrite app_nil_r, map_size_empty.
Qed.

Lemma GetReplica_returns_entry a σ :
  ∃ r, (GetReplica a σ).1 = Some r ∧ replicas (GetReplica a σ).2 !! a = Some r.
Proof.
  destruct (replicas σ !! a) as [ra|] eqn:E.
  - exists ra. by rewrite (GetReplica_registered _ _ _ E).
  - exists (length (heap σ)). rewrite (GetReplica_fresh _ _ E). cbn.
    by rewrite lookup_insert_eq.
Qed.

Section WithClosing.
Variable closing : loc → option Signal.

Lemma exec_op_store o σ :
  (exec_op closing o σ).2 =
    match o with OpGetReplica a => (GetReplica a σ).2 | _ => σ end.
Proof.
  destruct o as [a|order|]; cbn; [by destruct (GetReplica a σ)| |done].
  rewrite Close_result. done.
Qed.

Lemma exec_cons o ops σ :
  (exec closing (o :: ops) σ).2 = (exec closing ops (exec_op closing o σ).2).2.
Proof.
  cbn. destruct (exec_op closing o σ) as [ob σ1]. cbn.
  by destruct (exec closing ops σ1).
Qed.

Lemma exec_keeps_entries ops σ b r :
  replicas σ !! b = Some r → replicas (exec closing ops σ).2 !! b = Some r.
Proof.
  revert σ. induction ops as [|o ops IH]; intros σ Hb; [done|].
  rewrite exec_cons. apply IH. rewrite exec_op_store.
  destruct o; [by apply GetReplica_keeps_entries|done|done].
Qed.

Lemma exec_count ops σ :
  (ReplicaCount σ ≤ ReplicaCount (exec closing ops σ).2)%nat.
Proof.
  revert σ. induction ops as [|o ops IH]; intros σ; [done|].
  rewrite exec_cons. etrans; [|apply IH]. rewrite exec_op_store.
  destruct o as [a| |]; [|done|done]. rewrite GetReplica_count. lia.
Qed.

Lemma exec_inv h ops σ : pool_inv h σ → pool_inv h (exec closing ops σ).2.
Proof.
  revert σ. induction ops as [|o ops IH]; intros σ Hinv; [done|].
  rewrite exec_cons. apply IH. rewrite exec_op_store.
  destruct o; [by apply GetReplica_inv|done|done].
Qed.

Lemma pool_inv_injective h σ a1 a2 r :
  pool_inv h σ →
  replicas σ !! a1 = Some r → replicas σ !! a2 = Some r → a1 = a2.
Proof.
  intros [Hentry _] H1 H2.
  destruct (Hentry _ _ H1) as [_ E1]. destruct (Hentry _ _ H2) as [_ E2].
  rewrite E1 in E2. by injection E2.
Qed.

(** X4: a registration is for good.  Once [GetReplica a] has returned a
    session, whatever operations of the pool follow ([GetReplica] for any
    addresses, [Close], [ReplicaCount]), a further [GetReplica a] returns
    that same instance and constructs nothing; no entry of the map is ever
    removed or redirected, and [ReplicaCount] never decreases. *)
Theorem registration_is_stable (ops : list Op) (a : string) (σ : State) :
  GetReplica a (exec closing ops (GetReplica a σ).2).2 =
    ((GetReplica a σ).1, (exec closing ops (GetReplica a σ).2).2) ∧
  (∀ b r, replicas σ !! b = Some r →
          replicas (exec closing ops σ).2 !! b = Some r) ∧
  (ReplicaCount σ ≤ ReplicaCount (exec closing ops σ).2)%nat.
Proof.
  split; [|split].
  - destruct (GetReplica_returns_entry a σ) as (r & Hr & Hreg).
    rewrite Hr. apply GetReplica_registered.
    by apply exec_keeps_entries.
  - intros b r. apply exec_keeps_entries.
  - apply exec_count.
Qed.

(** X5: what one [GetReplica a] call leaves alone.  The entries of all
    other addresses are as before; the sessions constructed before are
    still there, with at most one new session after them; and both the
    count and the number of constructed sessions grow by one exactly when
    [a] was not registered. *)
Theorem GetReplica_frame (a : string) (σ : State) :
  (∀ b, b ≠ a → replicas (GetReplica a σ).2 !! b = replicas σ !! b) ∧
  heap σ `prefix_of` heap (GetReplica a σ).2 ∧
  ReplicaCount (GetReplica a σ).2 =
    ReplicaCount σ + match replicas σ !! a with Some _ => 0 | None => 1 end ∧
  length (heap (GetReplica a σ).2) =
    length (heap σ) + match replicas σ !! a with Some _ => 0 | None => 1 end.
Proof.
  split; [|split; [|split]].
  - intros b Hb. destruct (replicas σ !! a) as [ra|] eqn:E.
    + by rewrite (GetReplica_registered _ _ _ E).
    + rewrite (GetReplica_fresh _ _ E). cbn. by rewrite lookup_insert_ne.
  - destruct (replicas σ !! a) as [ra|] eqn:E.
    + by rewrite (GetReplica_registered _ _ _ E).
    + rewrite (GetReplica_fresh _ _ E). cbn. by eexists.
  - apply GetReplica_count.
  - destruct (replicas σ !! a) as [ra|] eqn:E.
    + rewrite (GetReplica_registered _ _ _ E). cbn. lia.
    + rewrite (GetReplica_fresh _ _ E). cbn. rewrite length_app. cbn. lia.
Qed.

(** X6: on a pool that [NewReplicaManager] made, after any operations:
    every registered session is one the pool constructed itself, for the
    very address it is registered under; two addresses never share a
    session; and the pool has constructed exactly as many sessions as
    [ReplicaCount] reports, leaving the sessions of others untouched. *)
Theorem pool_sessions_match_addresses
    (h : list ReplicaSession) (ops : list Op) :
  let σ := (exec closing ops (NewReplicaManager h)).2 in
  (∀ a r, replicas σ !! a = Some r →
     (length h ≤ r)%nat ∧
     heap σ !! r = Some {| session := newNodeSession a kNodeTypeReplica |}) ∧
  (∀ a1 a2 r, replicas σ !! a1 = Some r → replicas σ !! a2 = Some r →
     a1 = a2) ∧
  length (heap σ) = length h + ReplicaCount σ ∧
  h `prefix_of` heap σ.
Proof.
  cbv zeta.
  pose proof (exec_inv h ops _ (NewReplicaManager_inv h)) as Hinv.
  split; [|split; [|split]].
  - apply (pool_entry _ _ Hinv).
  - intros a1 a2 r. by apply pool_inv_injective with h.
  - destruct (pool_heap _ _ Hinv) as (new & -> & Hnew).
    rewrite length_app. unfold ReplicaCount. lia.
  - destruct (pool_heap _ _ Hinv) as (new & -> & Hnew). by eexists.
Qed.

(** X9: on a pool that [NewReplicaManager] made, after any operations, the
    session that [GetReplica a] returns is a replica session of the address
    [a], and its [String] is [replica(a)]. *)
Theorem GetReplica_session_has_address
    (h : list ReplicaSession) (ops : list Op) (a : string) :
  let σ := (exec closing ops (NewReplicaManager h)).2 in
  ∃ r s, (GetReplica a σ).1 = Some r ∧
         heap (GetReplica a σ).2 !! r = Some s ∧
         ntype (session s) = kNodeTypeReplica ∧
         Facade.String (addr (session s)) = "replica(" +:+ a +:+ ")".
Proof.
  cbv zeta.
  pose proof (exec_inv h ops _ (NewReplicaManager_inv h)) as Hinv.
  apply (GetReplica_inv _ a) in Hinv.
  destruct (GetReplica_returns_entry a
              (exec closing ops (NewReplicaManager h)).2) as (r & Hr & Hreg).
  destruct (pool_entry _ _ Hinv _ _ Hreg) as [_ Hs].
  by exists r, {| session := newNodeSession a kNodeTypeReplica |}.
Qed.

Lemma close_range_app order1 order2 tr :
  close_range closing (order1 ++ order2) tr =
    if (close_range closing order1 tr).1
    then close_range closing order2 (close_range closing order1 tr).2
    else close_range closing order1 tr.
Proof.
  revert tr. induction order1 as [|[a r] rest IH]; intros tr; cbn; [done|].
  destruct (closing r); [apply IH|done].
Qed.

Lemma close_range_sessions order tr tr' :
  close_range closing order tr = (true, tr') →
  closed_sessions tr' = closed_sessions tr ++ order.*2 ∧
  length tr' = length tr + 2 * length order.
Proof.
  revert tr. induction order as [|[a r] rest IH]; intros tr; cbn.
  - intros [= <-]. by rewrite app_nil_r, Nat.add_0_r.
  - destruct (closing r) as [s|]; [|discriminate].
    intros [-> ->]%IH. unfold closed_sessions.
    rewrite !omap_app, !length_app. cbn. rewrite <- !app_assoc. cbn.
    split; [done|lia].
Qed.

(** X7: on a pool that [NewReplicaManager] made, after any operations, a
    [Close] that returns has invoked the close of the registered sessions
    in the order of the range, of each of them once and of no other
    session, and has made two events (call, signal) for each. *)
Theorem Close_closes_each_session_once
    (h : list ReplicaSession) (ops : list Op) (order : list (string * loc))
    err tr σ' :
  let σ := (exec closing ops (NewReplicaManager h)).2 in
  range_order σ order →
  Close closing order σ = (CloseReturned err, tr, σ') →
  closed_sessions tr = order.*2 ∧
  NoDup (closed_sessions tr) ∧
  (∀ r, r ∈ closed_sessions tr ↔ ∃ a, replicas σ !! a = Some r) ∧
  length tr = 2 * ReplicaCount σ.
Proof.
  cbv zeta. intros Hord.
  pose proof (exec_inv h ops _ (NewReplicaManager_inv h)) as Hinv.
  set (σ := (exec closing ops (NewReplicaManager h)).2) in *.
  rewrite Close_result.
  destruct (close_range closing order []) as [[|] tr0] eqn:E; cbn;
    [|discriminate].
  intros [= <- <- <-].
  destruct (close_range_sessions _ _ _ E) as [Hcs Hlen]. cbn in Hcs, Hlen.
  unfold range_order in Hord.
  rewrite Hcs. split; [done|]. split; [|split].
  - rewrite Hord. apply NoDup_fmap_2_strong; [|apply NoDup_map_to_list].
    intros [a1 r1] [a2 r2] H1%elem_of_map_to_list H2%elem_of_map_to_list.
    cbn. intros <-. f_equal. by apply (pool_inv_injective h σ _ _ r1).
  - intros r. rewrite Hord, list_elem_of_fmap. split.
    + intros ([a r'] & -> & Hin%elem_of_map_to_list). by exists a.
    + intros [a Ha]. exists (a, r). by rewrite elem_of_map_to_list.
  - rewrite Hlen, Hord. unfold ReplicaCount.
    by rewrite length_map_to_list.
Qed.

(** X8: [Close] gets stuck at the first session of the range whose signal
    never comes.  The sessions before it have been closed and waited for,
    its own close has been invoked, and the close of the sessions after it
    in the range is never invoked. *)
Theorem Close_blocks_at_first_silent_session
    (before after : list (string * loc)) (a : string) (r : loc) (σ : State) :
  (∀ b r', (b, r') ∈ before → is_Some (closing r')) →
  closing r = None →
  Close closing (before ++ (a, r) :: after) σ =
    (CloseBlocked, (close_range closing before []).2 ++ [CloseCalled r], σ) ∧
  closed_sessions (Close closing (before ++ (a, r) :: after) σ).1.2
    = before.*2 ++ [r].
Proof.
  intros Hall Hr.
  pose proof (close_range_completes closing before [] Hall) as Hb.
  assert (Close closing (before ++ (a, r) :: after) σ =
    (CloseBlocked, (close_range closing before []).2 ++ [CloseCalled r], σ))
    as HC.
  { rewrite Close_result, close_range_app, Hb. cbn. by rewrite Hr. }
  split; [done|]. rewrite HC. cbn.
  destruct (close_range closing before []) as [b tr] eqn:E.
  cbn in Hb. subst b.
  destruct (close_range_sessions _ _ _ E) as [Hcs _]. cbn in *.
  unfold closed_sessions in *. by rewrite omap_app, Hcs.
Qed.

End WithClosing.
End PoolMore.

(** * Further properties of concurrent callers *)

Section RaceMore.
Import Pool Race.

Lemma register_all_snoc order a σ :
  register_all (order ++ [a]) σ = (GetReplica a (register_all order σ)).2.
Proof. unfold register_all. by rewrite foldl_app. Qed.

Lemma addr_update (l : list Thread) i t t' :
  l !! i = Some t → thread_addr t' = thread_addr t →
  thread_addr <$> <[i := t']> l = thread_addr <$> l.
Proof.
  intros Hi Ht. rewrite list_fmap_insert. apply list_insert_id.
  by rewrite list_lookup_fmap, Hi, Ht.
Qed.

Lemma effect_update_same (l : list Thread) i t t' :
  l !! i = Some t → took_effect t' = took_effect t →
  omap took_effect (<[i := t']> l) = omap took_effect l.
Proof.
  revert i. induction l as [|x l IH]; intros [|i] Hi Ht; try done.
  - injection Hi as ->. simpl. by rewrite Ht.
  - specialize (IH i Hi Ht). unfold omap in *. simpl. by rewrite IH.
Qed.

Lemma effect_update_new (l : list Thread) i t t' b :
  l !! i = Some t → took_effect t = None → took_effect t' = Some b →
  omap took_effect (<[i := t']> l) ≡ₚ b :: omap took_effect l.
Proof.
  revert i. induction l as [|x l IH]; intros [|i] Hi Ht Ht'; try done.
  - injection Hi as ->. simpl. by rewrite Ht, Ht'.
  - specialize (IH i Hi Ht Ht'). unfold omap in *. simpl.
    destruct (took_effect x); rewrite IH; [apply Permutation_swap|done].
Qed.

Ltac upd :=
  repeat match goal with
  | H : <[_ := _]> _ !! _ = Some _ |- _ =>
      apply lookup_update in H as [[-> ?]|[? H]]
  end.

Ltac holder :=
  match goal with
  | Hone : ∀ i j ti tj, _ → _ → _ → _ → i = j |- _ =>
      solve [ eapply Hone; eauto | symmetry; eapply Hone; eauto ]
  end.

Section AnyAddresses.
Variables (σ0 : State) (addrs : list string).

Lemma init_ser : Ser σ0 addrs (init σ0 addrs).
Proof.
  assert (∀ i t, (AtLock <$> addrs) !! i = Some t → ∃ a, t = AtLock a)
    as Hall.
  { intros i t. rewrite list_lookup_fmap.
    destruct (addrs !! i) as [b|]; [|done]. intros [= <-]. by eexists. }
  split; cbn.
  - rewrite <- list_fmap_compose. apply list_fmap_id.
  - by intros _ i t [a ->]%Hall.
  - discriminate.
  - by intros i j ti tj [a ->]%Hall.
  - exists []. split; [|done].
    induction addrs as [|b l IH]; [done|]. cbn. apply IH.
    intros i t Ht. by apply (Hall (S i)).
  - by intros i a [b ?]%Hall.
  - by intros i a [b ?]%Hall.
  - by intros i a ret [[b ?]%Hall|[b ?]%Hall].
Qed.

Lemma step_preserves_ser i c c' :
  Ser σ0 addrs c → step i c = Some c' → Ser σ0 addrs c'.
Proof.
  intros [Haddrs Hfree Hheld Hone (order & Hperm & Hstore) Hins Hret Hres]
    Hstep.
  unfold step in Hstep.
  destruct (threads c !! i) as [t|] eqn:Ei; [|discriminate].
  assert (i < length (threads c)) as Hlen by (by eapply lookup_lt_Some).
  destruct t as [a|a|a|a|a ret|a ret].
  - (* the lock is taken *)
    destruct (locked c) eqn:El; [discriminate|]. injection Hstep as <-.
    specialize (Hfree eq_refl).
    split; cbn.
    + by rewrite (addr_update _ _ _ _ Ei).
    + discriminate.
    + intros _. exists i, (AtCheck a). by rewrite list_lookup_insert_eq.
    + intros j k tj tk Hj Hk Cj Ck. upd; subst; try done; exfalso;
        match goal with
        | Hx : threads c !! _ = Some ?t, C : in_cs ?t = true |- _ =>
            by rewrite (Hfree _ _ Hx) in C
        end.
    + exists order. by rewrite (effect_update_same _ _ _ _ Ei).
    + intros j b Hj. upd; [done|eauto].
    + intros j b Hj. upd; [done|eauto].
    + intros j b ret [Hj|Hj]; upd; try done; eauto.
  - (* the entry is tested *)
    assert (locked c = true) as El.
    { destruct (locked c) eqn:El; [done|].
      by pose proof (Hfree eq_refl _ _ Ei). }
    destruct (replicas (store c) !! a) as [r|] eqn:Ea;
      injection Hstep as <-; split; cbn.
    + by rewrite (addr_update _ _ _ _ Ei).
    + by rewrite El.
    + intros _. exists i, (AtReturn a). by rewrite list_lookup_insert_eq.
    + intros j k tj tk Hj Hk Cj Ck. upd; subst; try done; holder.
    + exists (order ++ [a]). split.
      * rewrite (effect_update_new _ _ _ _ a Ei) by done.
        by rewrite <- Hperm, Permutation_app_comm.
      * rewrite register_all_snoc, <- Hstore.
        by rewrite (GetReplica_registered _ _ _ Ea).
    + intros j b Hj. upd; [done|eauto].
    + intros j b Hj. upd; [|eauto]. injection H as <-. by rewrite Ea.
    + intros j b ret [Hj|Hj]; upd; try done; eauto.
    + by rewrite (addr_update _ _ _ _ Ei).
    + by rewrite El.
    + intros _. exists i, (AtInsert a). by rewrite list_lookup_insert_eq.
    + intros j k tj tk Hj Hk Cj Ck. upd; subst; try done; holder.
    + exists order. by rewrite (effect_update_same _ _ _ _ Ei).
    + intros j b Hj. upd; [|eauto]. by injection H as <-.
    + intros j b Hj. upd; [done|eauto].
    + intros j b ret [Hj|Hj]; upd; try done; eauto.
  - (* the session is constructed and registered *)
    cbn in Hstep. injection Hstep as <-.
    pose proof (Hins _ _ Ei) as Ea.
    split; cbn.
    + by rewrite (addr_update _ _ _ _ Ei).
    + intros El. by pose proof (Hfree El _ _ Ei).
    + intros _. exists i, (AtReturn a). by rewrite list_lookup_insert_eq.
    + intros j k tj tk Hj Hk Cj Ck. upd; subst; try done; holder.
    + exists (order ++ [a]). split.
      * rewrite (effect_update_new _ _ _ _ a Ei) by done.
        by rewrite <- Hperm, Permutation_app_comm.
      * rewrite register_all_snoc, <- Hstore.
        by rewrite (GetReplica_fresh _ _ Ea).
    + intros j b Hj. upd; [done|].
      exfalso. by pose proof (Hone _ _ _ _ Ei Hj eq_refl eq_refl).
    + intros j b Hj. upd.
      * injection H as <-. by rewrite lookup_insert_eq.
      * exfalso. by pose proof (Hone _ _ _ _ Ei Hj eq_refl eq_refl).
    + intros j b ret Hj.
      assert (threads c !! j = Some (AtUnlock b ret) ∨
              threads c !! j = Some (Done b ret)) as Hj'.
      { destruct Hj as [Hj|Hj]; upd; try done; eauto. }
      destruct (Hres _ _ _ Hj') as [Hsome Hb]. split; [done|].
      rewrite lookup_insert_ne; [done|].
      intros <-. rewrite Ea in Hb. subst ret. by destruct Hsome.
  - (* the entry is read *)
    injection Hstep as <-.
    split; cbn.
    + by rewrite (addr_update _ _ _ _ Ei).
    + intros El. by pose proof (Hfree El _ _ Ei).
    + intros _. eexists i, _. by rewrite list_lookup_insert_eq.
    + intros j k tj tk Hj Hk Cj Ck. upd; subst; try done; holder.
    + exists order. by rewrite (effect_update_same _ _ _ _ Ei).
    + intros j b Hj. upd; [done|eauto].
    + intros j b Hj. upd; [done|eauto].
    + intros j b ret [Hj|Hj]; upd; try done; eauto.
      injection H as <- ->. split; [by eapply Hret|done].
  - (* the lock is released *)
    injection Hstep as <-.
    split; cbn.
    + by rewrite (addr_update _ _ _ _ Ei).
    + intros _ j t Hj. upd; [by subst|].
      destruct (in_cs t) eqn:Ct; [|done].
      by pose proof (Hone _ _ _ _ Ei Hj eq_refl Ct).
    + discriminate.
    + intros j k tj tk Hj Hk Cj Ck. upd; subst; try done; holder.
    + exists order. by rewrite (effect_update_same _ _ _ _ Ei).
    + intros j b Hj. upd; [done|eauto].
    + intros j b Hj. upd; [done|eauto].
    + intros j b ret' [Hj|Hj]; upd; try done; eauto.
      injection H as <- <-. eauto.
  - discriminate.
Qed.

Lemma exec_preserves_ser sched c c' :
  Ser σ0 addrs c → exec sched c = Some c' → Ser σ0 addrs c'.
Proof.
  revert c. induction sched as [|i sched IH]; intros c Hser; cbn.
  - by intros [= <-].
  - destruct (step i c) as [c1|] eqn:Es; [|discriminate].
    apply IH. by eapply step_preserves_ser.
Qed.

End AnyAddresses.

Lemma all_done_effect (l : list Thread) :
  forallb is_done l = true → omap took_effect l = thread_addr <$> l.
Proof.
  induction l as [|t l IH]; [done|]. cbn.
  intros [Ht Hl]%andb_prop. specialize (IH Hl).
  unfold omap in *. cbn. rewrite IH. by destruct t.
Qed.

Lemma all_done_lookup (l : list Thread) i t :
  forallb is_done l = true → l !! i = Some t → is_done t = true.
Proof.
  revert i. induction l as [|x l IH]; intros [|i]; cbn; try done.
  - by intros [Hx _]%andb_prop [= <-].
  - intros [_ Hl]%andb_prop. by apply IH.
Qed.

Lemma ser_progress σ0 addrs c :
  Ser σ0 addrs c → all_done c = false → ∃ i c', step i c = Some c'.
Proof.
  intros Hser Hnd.
  destruct (locked c) eqn:El.
  - destruct (ser_held _ _ _ Hser El) as (i & t & Ei & Ct).
    destruct (holder_steps _ _ _ Ei Ct) as [c' Hc']. eauto.
  - destruct (not_all_done_lookup _ Hnd) as (i & t & Ei & Ht).
    destruct (waiting_thread t) as [b ->];
      [done|by apply (ser_free _ _ _ Hser El i)|].
    exists i. unfold step. rewrite Ei, El. eauto.
Qed.

(** X10: callers of [GetReplica] for any addresses, run at once from any
    store under any schedule, leave the pool as the same calls made one
    after the other in some order would: once all have returned, the store
    is the one that sequence of calls makes, and every caller has returned
    the session registered for its address, so callers for one address hold
    one instance. *)
Theorem concurrent_GetReplica_is_serializable
    (σ0 : State) (addrs : list string) (sched : list nat) (c : Config) :
  exec sched (init σ0 addrs) = Some c →
  all_done c = true →
  ∃ order, order ≡ₚ addrs ∧
    store c = register_all order σ0 ∧
    ∀ i a, addrs !! i = Some a →
      ∃ r, threads c !! i = Some (Done a (Some r)) ∧
           replicas (store c) !! a = Some r.
Proof.
  intros Hexec Hdone.
  pose proof (exec_preserves_ser σ0 addrs _ _ _ (init_ser σ0 addrs) Hexec)
    as Hser.
  destruct (ser_order _ _ _ Hser) as (order & Hperm & Hstore).
  exists order. split; [|split; [done|]].
  - by rewrite Hperm, (all_done_effect _ Hdone), (ser_addrs _ _ _ Hser).
  - intros i a Hi. rewrite <- (ser_addrs _ _ _ Hser) in Hi.
    apply list_lookup_fmap_Some in Hi as (t & -> & Ht).
    pose proof (all_done_lookup _ _ _ Hdone Ht) as Dt.
    destruct t as [| | | | |b ret]; try done. cbn.
    destruct (ser_result _ _ _ Hser i b ret) as [[r ->] Hb]; [by right|].
    by exists r.
Qed.

(** X11: callers of [GetReplica] for any addresses exclude each other and
    cannot get stuck.  At every point of every execution at most one caller
    is between its lock and its unlock; unless all callers have returned
    some caller has a step; and no execution is longer than five steps for
    each caller. *)
Theorem concurrent_GetReplica_never_deadlocks
    (σ0 : State) (addrs : list string) (sched : list nat) (c : Config) :
  exec sched (init σ0 addrs) = Some c →
  (∀ i j ti tj,
     threads c !! i = Some ti → threads c !! j = Some tj →
     in_cs ti = true → in_cs tj = true → i = j) ∧
  (all_done c = false → ∃ i c', step i c = Some c') ∧
  (length sched + budget c ≤ 5 * length addrs)%nat.
Proof.
  intros Hexec.
  pose proof (exec_preserves_ser σ0 addrs _ _ _ (init_ser σ0 addrs) Hexec)
    as Hser.
  split; [|split].
  - apply (ser_one _ _ _ Hser).
  - by apply (ser_progress σ0 addrs).
  - apply exec_budget in Hexec. by rewrite init_budget in Hexec.
Qed.

End RaceMore.

(** ** The further properties on concrete calls *)

Section MoreExamples.
Import Facade Pool.
Existing Instance example_idl.

Lemma unexpected_result_yields_no_payload_witness :
  constant_transport (NilIface, None) 0 (call_of MGet tt gpid_1_3 key_a)
    = ((NilIface, None), 1) ∧
  (∀ v e, (run (constant_transport (NilIface, None))
               (Get tt gpid_1_3 key_a) 0 []).1.1 ≠ Returned (Some v, e)) ∧
  (run (constant_transport (NilIface, None)) (Get tt gpid_1_3 key_a) 0 []).2
    = [call_of MGet tt gpid_1_3 key_a].
Proof.
  split; [reflexivity|].
  pose proof (unexpected_result_yields_no_payload
                (constant_transport (NilIface, None))
                MGet tt gpid_1_3 key_a 0 NilIface 1 eq_refl) as X.
  assert (∀ r, NilIface ≠ result_of MGet (Some r)) as Hne
    by (intros r; discriminate).
  split; [exact (proj1 (X Hne))|exact (proj2 (proj2 (proj2 (X Hne))))].
Defined.

Lemma Close_closes_each_session_once_witness :
  closed_sessions [CloseCalled 1; SignalReceived 1 None;
                   CloseCalled 0; SignalReceived 0 None] = [1; 0] ∧
  NoDup (closed_sessions [CloseCalled 1; SignalReceived 1 None;
                          CloseCalled 0; SignalReceived 0 None]).
Proof.
  pose proof (Close_closes_each_session_once closes_cleanly []
                [OpGetReplica addr1; OpGetReplica addr2]
                [(addr2, 1); (addr1, 0)] None
                [CloseCalled 1; SignalReceived 1 None;
                 CloseCalled 0; SignalReceived 0 None]
                two_sessions two_sessions_range eq_refl) as X.
  split; [exact (proj1 X)|exact (proj1 (proj2 X))].
Defined.

Lemma Close_blocks_at_first_silent_session_witness :
  Close first_never_signals [(addr2, 1); (addr1, 0); (addr3, 2)] two_sessions
    = (CloseBlocked,
       [CloseCalled 1; SignalReceived 1 None; CloseCalled 0],
       two_sessions).
Proof.
  apply (Close_blocks_at_first_silent_session first_never_signals
           [(addr2, 1)] [(addr3, 2)] addr1 0 two_sessions).
  - intros b r' Hin. apply list_elem_of_singleton in Hin.
    injection Hin as -> ->. by eexists.
  - reflexivity.
Defined.

End MoreExamples.

Section RaceMoreExamples.
Import Pool Race.

Lemma concurrent_GetReplica_is_serializable_witness :
  exec [2; 2; 2; 2; 2; 1; 1; 1; 1; 1; 0; 0; 0; 0]
       (init (NewReplicaManager []) [addr1; addr2; addr1])
    = Some mixed_returned ∧
  all_done mixed_returned = true ∧
  ∃ order, order ≡ₚ [addr1; addr2; addr1] ∧
    store mixed_returned = register_all order (NewReplicaManager []) ∧
    ∀ i a, [addr1; addr2; addr1] !! i = Some a →
      ∃ r, threads mixed_returned !! i = Some (Done a (Some r)) ∧
           replicas (store mixed_returned) !! a = Some r.
Proof.
  split; [reflexivity|]. split; [reflexivity|].
  exact (concurrent_GetReplica_is_serializable (NewReplicaManager [])
           [addr1; addr2; addr1]
           [2; 2; 2; 2; 2; 1; 1; 1; 1; 1; 0; 0; 0; 0] mixed_returned
           eq_refl eq_refl).
Defined.

Lemma concurrent_GetReplica_never_deadlocks_witness :
  exec [1] (init (NewReplicaManager []) [addr1; addr2])
    = Some second_holds_lock ∧
  ∃ i c', step i second_holds_lock = Some c'.
Proof.
  split; [reflexivity|].
  exact (proj1 (proj2 (concurrent_GetReplica_never_deadlocks
                         (NewReplicaManager []) [addr1; addr2] [1]
                         second_holds_lock eq_refl))
           eq_refl).
Defined.

End RaceMoreExamples.

(** * Properties of the lock discipline *)

Section LockingFacts.
Import Pool Race Locking.
Context `{Idl}.
Variable closing : loc → option Signal.

Lemma lookup_upd {A} (l : list A) i j x' x :
  <[i := x']> l !! j = Some x →
  (j = i ∧ x = x') ∨ (j ≠ i ∧ l !! j = Some x).
Proof.
  intros [(-> & -> & _)|[? ?]]%list_lookup_insert_Some; [left|right]; done.
Qed.

Lemma sum_update {A} (f : A → nat) (l : list A) i x x' :
  l !! i = Some x →
  sum_list (f <$> <[i := x']> l) + f x = sum_list (f <$> l) + f x'.
Proof.
  revert i. induction l as [|y l IH]; intros [|i] Hi; try done.
  - injection Hi as ->. rewrite !fmap_cons. cbn [sum_list sum_list_with].
    change (<[0 := x']> (x :: l)) with (x' :: l).
    rewrite fmap_cons. cbn [sum_list sum_list_with]. unfold sum_list, id. lia.
  - change (<[S i := x']> (y :: l)) with (y :: <[i := x']> l).
    rewrite !fmap_cons. cbn [sum_list sum_list_with].
    specialize (IH i Hi). unfold sum_list, id in *. lia.
Qed.

Lemma sum_zero {A} (f : A → nat) (l : list A) i x :
  sum_list (f <$> l) = 0 → l !! i = Some x → f x = 0.
Proof.
  revert i. induction l as [|y l IH]; intros [|i]; try done;
    rewrite fmap_cons; cbn [sum_list sum_list_with]; unfold sum_list, id in *.
  - intros Hs [= <-]. lia.
  - intros Hs Hi. apply (IH i); [lia|done].
Qed.

Lemma inside_step_writing t σ t' σ' :
  inside_step t σ = Some (t', σ') → in_cs t = true ∧ in_cs t' = true.
Proof.
  destruct t; cbn; try discriminate; intros [= <- <-]; split; try done.
  by destruct (replicas σ !! a).
Qed.

Lemma inside_step_count t σ t' σ' :
  inside_step t σ = Some (t', σ') → (ReplicaCount σ ≤ ReplicaCount σ')%nat.
Proof.
  destruct t; cbn; try discriminate; intros [= <- <-]; try done.
  unfold ReplicaCount. cbn.
  destruct (replicas σ !! a) eqn:E.
  - rewrite map_size_insert_Some; [done|by eexists].
  - rewrite map_size_insert_None by done. lia.
Qed.

Lemma free_for_writer_spec c :
  free_for_writer c = true → writer c = false ∧ readers c = 0.
Proof.
  unfold free_for_writer. intros [Hw Hr]%andb_prop.
  split; [by destruct (writer c)|by apply Nat.eqb_eq].
Qed.

(** One caller moves from [x] to [x']; what the move has to respect for
    the discipline to be kept. *)
Lemma update_disciplined σ0 c i x x' σ' w' n' :
  Disciplined σ0 c →
  callers c !! i = Some x →
  n' + reading x = readers c + reading x' →
  (w' = false → writing x' = false) →
  (writing x = true ∨ writer c = false ∨
   (w' = writer c ∧ writing x' = false)) →
  (w' = true → n' = 0) →
  (σ' = Locking.store c ∨
   (writer c = true ∧
    (ReplicaCount (Locking.store c) ≤ ReplicaCount σ')%nat)) →
  (∀ n, x' = Counting (CountAtRUnlock n) → n = ReplicaCount σ') →
  (∀ n, x' = Counting (CountDone n) →
        (ReplicaCount σ0 ≤ n ∧ n ≤ ReplicaCount σ')%nat) →
  Disciplined σ0
    {| Locking.store := σ'; writer := w'; readers := n';
       callers := <[i := x']> (callers c) |}.
Proof.
  intros [Hrd Hnw Hone Hex Hing Hread Hgrow] Ei Hr Hw1 Hw2 He Hs Hd1 Hd2.
  assert (∀ j xj, j ≠ i → callers c !! j = Some xj →
                  writing xj = true → writing x' = true ∨ w' = false →
                  False) as Hother.
  { intros j xj Hji Hj Wj Hx'.
    destruct Hw2 as [Wx|[Hfree|[-> Wx']]].
    - by apply Hji, (Hone _ _ _ _ Hj Ei).
    - by rewrite (Hnw Hfree _ _ Hj) in Wj.
    - destruct Hx' as [Hx'|Hfree]; [congruence|].
      by rewrite (Hnw Hfree _ _ Hj) in Wj. }
  assert ((ReplicaCount (Locking.store c) ≤ ReplicaCount σ')%nat) as Hle.
  { by destruct Hs as [->|[_ ?]]. }
  split; cbn.
  - pose proof (sum_update reading _ _ _ x' Ei). lia.
  - intros Hw' j xj Hj. apply lookup_upd in Hj as [[-> ->]|[Hji Hj]].
    + by apply Hw1.
    + destruct (writing xj) eqn:Wj; [|done].
      exfalso. apply (Hother j xj); auto.
  - intros j k xj xk Hj Hk Wj Wk.
    apply lookup_upd in Hj as [[-> ->]|[Hji Hj]];
      apply lookup_upd in Hk as [[-> ->]|[Hki Hk]]; try done.
    + exfalso. apply (Hother k xk); auto.
    + exfalso. apply (Hother j xj); auto.
    + by apply (Hone _ _ _ _ Hj Hk).
  - done.
  - intros j n Hj. apply lookup_upd in Hj as [[-> Hx]|[Hji Hj]].
    + by apply Hd1.
    + destruct Hs as [->|[Hw _]]; [by apply (Hing j)|].
      pose proof (Hex Hw) as Hz. rewrite Hrd in Hz.
      by pose proof (sum_zero reading _ _ _ Hz Hj).
  - intros j n Hj. apply lookup_upd in Hj as [[-> Hx]|[Hji Hj]].
    + by apply Hd2.
    + destruct (Hread _ _ Hj). lia.
  - lia.
Qed.

Section FromStore.
Variable σ0 : State.

Lemma step_disciplined i c c' :
  Disciplined σ0 c → Locking.step closing i c = Some c' → Disciplined σ0 c'.
Proof.
  intros Hd Hstep. unfold Locking.step in Hstep.
  destruct (callers c !! i) as [x|] eqn:Ei; [|discriminate].
  assert (writing x = true → writer c = true) as Hheld.
  { intros Wx. destruct (writer c) eqn:Ew; [done|].
    by rewrite (d_no_writer _ _ Hd Ew _ _ Ei) in Wx. }
  destruct x as [t|s|s].
  - destruct t as [a|a|a|a|a ret|a ret].
    + destruct (free_for_writer c) eqn:Ef; [|discriminate].
      apply free_for_writer_spec in Ef as [Ew Er]. injection Hstep as <-.
      apply (update_disciplined _ _ _ _ _ _ _ _ Hd Ei); cbn; auto; try done.
    + destruct (inside_step (AtCheck a) (Locking.store c))
        as [[t' σ']|] eqn:Ein; [|discriminate]. injection Hstep as <-.
      destruct (inside_step_writing _ _ _ _ Ein) as [Wt Wt'].
      apply (update_disciplined _ _ _ _ _ _ _ _ Hd Ei); cbn; auto;
        try done.
      * intros Ew. rewrite Hheld in Ew; done.
      * intros _. by apply (d_exclusive _ _ Hd), Hheld.
      * right. split; [by apply Hheld|by eapply inside_step_count].
    + destruct (inside_step (AtInsert a) (Locking.store c))
        as [[t' σ']|] eqn:Ein; [|discriminate]. injection Hstep as <-.
      destruct (inside_step_writing _ _ _ _ Ein) as [Wt Wt'].
      apply (update_disciplined _ _ _ _ _ _ _ _ Hd Ei); cbn; auto;
        try done.
      * intros Ew. rewrite Hheld in Ew; done.
      * intros _. by apply (d_exclusive _ _ Hd), Hheld.
      * right. split; [by apply Hheld|by eapply inside_step_count].
    + destruct (inside_step (AtReturn a) (Locking.store c))
        as [[t' σ']|] eqn:Ein; [|discriminate]. injection Hstep as <-.
      destruct (inside_step_writing _ _ _ _ Ein) as [Wt Wt'].
      apply (update_disciplined _ _ _ _ _ _ _ _ Hd Ei); cbn; auto;
        try done.
      * intros Ew. rewrite Hheld in Ew; done.
      * intros _. by apply (d_exclusive _ _ Hd), Hheld.
      * right. split; [by apply Hheld|by eapply inside_step_count].
    + injection Hstep as <-.
      apply (update_disciplined _ _ _ _ _ _ _ _ Hd Ei); cbn; auto; try done.
    + discriminate.
  - destruct s as [order|[|[b r] rest]|r rest|err].
    + destruct (free_for_writer c) eqn:Ef; [|discriminate].
      apply free_for_writer_spec in Ef as [Ew Er]. injection Hstep as <-.
      apply (update_disciplined _ _ _ _ _ _ _ _ Hd Ei); cbn; auto; try done.
    + injection Hstep as <-.
      apply (update_disciplined _ _ _ _ _ _ _ _ Hd Ei); cbn; auto; try done.
    + injection Hstep as <-.
      apply (update_disciplined _ _ _ _ _ _ _ _ Hd Ei); cbn; auto; try done.
      * intros Ew. rewrite Hheld in Ew; done.
      * by apply (d_exclusive _ _ Hd).
    + destruct (closing r) as [sig|]; [|discriminate]. injection Hstep as <-.
      apply (update_disciplined _ _ _ _ _ _ _ _ Hd Ei); cbn; auto; try done.
      * intros Ew. rewrite Hheld in Ew; done.
      * by apply (d_exclusive _ _ Hd).
    + discriminate.
  - destruct s as [| |n|n].
    + destruct (writer c) eqn:Ew; [discriminate|]. injection Hstep as <-.
      apply (update_disciplined _ _ _ _ _ _ _ _ Hd Ei); cbn; auto;
        try done; try lia.
    + injection Hstep as <-.
      apply (update_disciplined _ _ _ _ _ _ _ _ Hd Ei); cbn; auto;
        try done.
      * by apply (d_exclusive _ _ Hd).
      * by intros n [= <-].
    + injection Hstep as <-.
      pose proof (d_reading _ _ Hd _ _ Ei) as Hn.
      pose proof (d_grows _ _ Hd) as Hg.
      apply (update_disciplined _ _ _ _ _ _ _ _ Hd Ei); cbn; auto;
        try done.
      * pose proof (sum_update reading _ _ _ (Counting (CountDone n)) Ei)
          as Hsum.
        rewrite <- (d_readers _ _ Hd) in Hsum. cbn in Hsum. lia.
      * intros Ew. rewrite (d_exclusive _ _ Hd Ew). done.
      * intros m [= <-]. lia.
    + discriminate.
Qed.

Lemma init_disciplined ops : Disciplined σ0 (Locking.init σ0 ops).
Proof.
  assert (∀ i x, (start <$> ops) !! i = Some x →
                 writing x = false ∧ reading x = 0 ∧
                 (∀ n, x ≠ Counting (CountAtRUnlock n)) ∧
                 (∀ n, x ≠ Counting (CountDone n))) as Hall.
  { intros i x. rewrite list_lookup_fmap.
    destruct (ops !! i) as [[a|order|]|]; [| | |done]; by intros [= <-]. }
  split; cbn.
  - clear Hall. induction ops as [|o l IH]; [done|].
    destruct o; cbn in *; exact IH.
  - intros _ i x Hx. by apply (Hall i).
  - intros i j xi xj Hi Hj Wi. destruct (Hall _ _ Hi) as [Wi' _]. congruence.
  - discriminate.
  - intros i n Hx. destruct (Hall _ _ Hx) as (_ & _ & Hn & _).
    by destruct (Hn n).
  - intros i n Hx. destruct (Hall _ _ Hx) as (_ & _ & _ & Hn).
    by destruct (Hn n).
  - done.
Qed.

Lemma exec_disciplined sched c c' :
  Disciplined σ0 c → Locking.exec closing sched c = Some c' →
  Disciplined σ0 c'.
Proof.
  revert c. induction sched as [|i sched IH]; intros c Hd; cbn.
  - by intros [= <-].
  - destruct (Locking.step closing i c) as [c1|] eqn:Es; [|discriminate].
    apply IH. by eapply step_disciplined.
Qed.

(** X12: what [ReplicaCount] returns under concurrent callers.  While the
    caller still holds the lock for reading, its number is the number of
    registered sessions; once it has returned, the number is at least the
    count at the start and at most the current count, which later
    registrations may have raised. *)
Theorem ReplicaCount_is_a_snapshot
    (ops : list Op) (sched : list nat) (c : Locking.Config) :
  Locking.exec closing sched (Locking.init σ0 ops) = Some c →
  (∀ i n, callers c !! i = Some (Counting (CountAtRUnlock n)) →
     n = ReplicaCount (Locking.store c)) ∧
  (∀ i n, callers c !! i = Some (Counting (CountDone n)) →
     (ReplicaCount σ0 ≤ n ∧ n ≤ ReplicaCount (Locking.store c))%nat).
Proof.
  intros Hexec.
  pose proof (exec_disciplined _ _ _ (init_disciplined ops) Hexec) as Hd.
  split; [apply (d_reading _ _ Hd)|apply (d_read _ _ Hd)].
Qed.

(** X13: the lock discipline of the three operations.  At every point of
    every execution at most one caller is inside [GetReplica] or [Close],
    and while one is, no caller of [ReplicaCount] is reading. *)
Theorem writers_exclude_each_other_and_readers
    (ops : list Op) (sched : list nat) (c : Locking.Config) :
  Locking.exec closing sched (Locking.init σ0 ops) = Some c →
  (∀ i j xi xj,
     callers c !! i = Some xi → callers c !! j = Some xj →
     writing xi = true → writing xj = true → i = j) ∧
  (∀ i j xi xj,
     callers c !! i = Some xi → callers c !! j = Some xj →
     writing xi = true → reading xj = 0).
Proof.
  intros Hexec.
  pose proof (exec_disciplined _ _ _ (init_disciplined ops) Hexec) as Hd.
  split; [apply (d_one_writer _ _ Hd)|].
  intros i j xi xj Hi Hj Wi.
  assert (writer c = true) as Hw.
  { destruct (writer c) eqn:Ew; [done|].
    by rewrite (d_no_writer _ _ Hd Ew _ _ Hi) in Wi. }
  pose proof (d_exclusive _ _ Hd Hw) as Hz. rewrite (d_readers _ _ Hd) in Hz.
  by apply (sum_zero reading _ _ _ Hz Hj).
Qed.

(** X14: a session that never signals freezes the pool.  When a caller of
    [Close] waits for the signal of a session that never comes, it holds
    the lock for ever: no caller has a step any more, so no caller of
    [GetReplica], [ReplicaCount] or [Close] that has not returned ever
    returns, and the store stays as it is. *)
Theorem silent_session_freezes_the_pool
    (ops : list Op) (sched : list nat) (c : Locking.Config)
    (k : nat) (r : loc) (rest : list (string * loc)) :
  Locking.exec closing sched (Locking.init σ0 ops) = Some c →
  callers c !! k = Some (Closing (CloseAtWait r rest)) →
  closing r = None →
  (∀ i, Locking.step closing i c = None) ∧
  (∀ sched' c', Locking.exec closing sched' c = Some c' →
                sched' = [] ∧ c' = c).
Proof.
  intros Hexec Hk Hr.
  pose proof (exec_disciplined _ _ _ (init_disciplined ops) Hexec) as Hd.
  assert (writer c = true) as Hw.
  { destruct (writer c) eqn:Ew; [done|].
    by pose proof (d_no_writer _ _ Hd Ew _ _ Hk). }
  pose proof (d_exclusive _ _ Hd Hw) as Hz.
  assert (∀ i, Locking.step closing i c = None) as Hnone.
  { intros i. unfold Locking.step.
    destruct (callers c !! i) as [x|] eqn:Ei; [|done].
    assert (free_for_writer c = false) as Hf
      by (unfold free_for_writer; by rewrite Hw).
    assert (reading x = 0) as Rx.
    { rewrite (d_readers _ _ Hd) in Hz. by apply (sum_zero reading _ _ _ Hz Ei). }
    destruct (decide (i = k)) as [->|Hik].
    { rewrite Hk in Ei. injection Ei as <-. by rewrite Hr. }
    assert (writing x = false) as Wx.
    { destruct (writing x) eqn:Wx; [|done].
      exfalso. apply Hik. by apply (d_one_writer _ _ Hd _ _ _ _ Ei Hk). }
    destruct x as [[]|[| | |]|[]]; cbn in *; rewrite ?Hf, ?Hw; try done. }
  split; [done|].
  intros [|i sched'] c'; cbn; [by intros [= <-]|]. by rewrite Hnone.
Qed.

End FromStore.
End LockingFacts.

Section LockingExamples.
Import Pool Race Locking.
Existing Instance example_idl.

Lemma ReplicaCount_is_a_snapshot_witness :
  Locking.exec closes_cleanly [0; 0; 0; 0; 0; 1; 1; 1; 2; 2; 2; 2; 2]
    (Locking.init (NewReplicaManager [])
       [OpGetReplica addr1; OpReplicaCount; OpGetReplica addr2])
    = Some counted_between ∧
  (ReplicaCount (NewReplicaManager []) ≤ 1 ∧
   1 ≤ ReplicaCount (Locking.store counted_between))%nat.
Proof.
  split; [reflexivity|].
  exact (proj2 (ReplicaCount_is_a_snapshot closes_cleanly
                  (NewReplicaManager [])
                  [OpGetReplica addr1; OpReplicaCount; OpGetReplica addr2]
                  [0; 0; 0; 0; 0; 1; 1; 1; 2; 2; 2; 2; 2]
                  counted_between eq_refl)
           1 1 eq_refl).
Defined.

Lemma writers_exclude_each_other_and_readers_witness :
  Locking.exec first_never_signals [0; 0; 0; 0; 0; 1; 1]
    (Locking.init (NewReplicaManager [])
       [OpGetReplica addr1; OpClose [(addr1, 0)]; OpReplicaCount;
        OpGetReplica addr2])
    = Some close_waits ∧
  ∀ j xj, callers close_waits !! j = Some xj → writing xj = true → 1 = j.
Proof.
  split; [reflexivity|].
  intros j xj Hj Wj.
  exact (proj1 (writers_exclude_each_other_and_readers first_never_signals
                  (NewReplicaManager [])
                  [OpGetReplica addr1; OpClose [(addr1, 0)]; OpReplicaCount;
                   OpGetReplica addr2]
                  [0; 0; 0; 0; 0; 1; 1] close_waits eq_refl)
           1 j (Closing (CloseAtWait 0 [])) xj eq_refl Hj eq_refl Wj).
Defined.

Lemma silent_session_freezes_the_pool_witness :
  Locking.exec first_never_signals [0; 0; 0; 0; 0; 1; 1]
    (Locking.init (NewReplicaManager [])
       [OpGetReplica addr1; OpClose [(addr1, 0)]; OpReplicaCount;
        OpGetReplica addr2])
    = Some close_waits ∧
  ∀ i, Locking.step first_never_signals i close_waits = None.
Proof.
  split; [reflexivity|].
  exact (proj1 (silent_session_freezes_the_pool first_never_signals
                  (NewReplicaManager [])
                  [OpGetReplica addr1; OpClose [(addr1, 0)]; OpReplicaCount;
                   OpGetReplica addr2]
                  [0; 0; 0; 0; 0; 1; 1] close_waits 1 0 []
                  eq_refl eq_refl eq_refl)).
Defined.

End LockingExamples.
